(** * Asynchronous SQL execution layer: operations, worker loop, result queue

    A shallow embedding of [src/shared/Database/SqlOperations.cpp] and
    [src/shared/Database/SqlDelayThread.cpp].

    Every method becomes a function that threads a [World]: the ordered
    trace of externally visible effects (connection calls, callback
    deliveries, deletions, log lines) together with the heap objects the
    operations reach through pointers.  The physical connection and the
    clock are collaborators outside the two files; their answers are taken
    as parameters that may depend on everything that happened before. *)

From stdpp Require Import base list strings.
From Stdlib Require Import ZArith Lia.

Set Warnings "-register-all".

(** ** Machine integers *)

(** [uint32] arithmetic wraps modulo 2^32. *)
Definition uint32 (z : Z) : Z := (z mod 2 ^ 32)%Z.

Definition INT_MAX : Z := (2 ^ 31 - 1)%Z.

(** Conversion of a [size_t] to [int], as in
    [int const nItems = m_queue.size()]: the value is reduced modulo 2^32
    into the signed range. *)
Definition int_of_size (n : nat) : Z :=
  ((Z.of_nat n + 2 ^ 31) mod 2 ^ 32 - 2 ^ 31)%Z.

(** ** Data model *)

(** Modelled from the spec: [QueryResult] is declared outside the two
    files; the spec knows a result only as a payload that is present or
    absent.  It is owned through [std::unique_ptr<QueryResult>], the empty
    pointer being [None], and is represented by the rows it holds. *)
Abbreviation QueryResult := (list (list string)).

(** Modelled from the spec: the bound parameter set of a prepared
    statement, declared outside the two files. *)
Abbreviation SqlStmtParameters := (list string).

(** Addresses of the heap objects shared between threads. *)
Abbreviation QueuePtr := nat.
Abbreviation HolderPtr := nat.

(** Modelled from the spec: [MaNGOS::IQueryCallback] is declared outside
    the two files; the spec gives a callback a thread-safety flag fixed at
    construction and answered by [IsThreadSafe()], a result stored by
    [SetResult], and a delivery action [Execute()].  [cb_id] tells
    callbacks apart in the trace. *)
Record IQueryCallback : Type := {
  cb_id : nat;
  cb_threadSafe : bool;
  cb_result : option QueryResult
}.

Definition IsThreadSafe (cb : IQueryCallback) : bool := cb_threadSafe cb.

Definition Callback_SetResult (r : option QueryResult) (cb : IQueryCallback)
  : IQueryCallback :=
  {| cb_id := cb_id cb; cb_threadSafe := cb_threadSafe cb; cb_result := r |}.

(** The five operation classes deriving from [SqlOperation].  A null
    pointer member is [None]. *)
Inductive SqlOperation : Type :=
| SqlPlainRequest (m_sql : string)
| SqlTransaction (m_queue : list SqlOperation)
| SqlPreparedRequest (m_nIndex : Z) (m_param : SqlStmtParameters)
| SqlQuery (m_sql : string) (m_callback : option IQueryCallback)
           (m_queue : option QueuePtr)
| SqlQueryHolderEx (m_holder : option HolderPtr)
                   (m_callback : option IQueryCallback)
                   (m_queue : option QueuePtr).

(** Messages handed to [sLog.Out]. *)
Inductive LogMessage : Type :=
| LogIndexOutOfRange (index size : nat) (sql : string)
| LogSlotOccupied (index : nat) (old new : string)
| LogEmptyFormat (index : nat)
| LogTruncated (format : string)
| LogUnsafeRemaining (numUnsafeQueries : Z).

(** What the code does to its collaborators, in program order. *)
Inductive Event : Type :=
| EvLock                                   (* SqlConnection::Lock constructed *)
| EvUnlock                                 (* ... and destroyed at scope exit *)
| EvBeginTransaction
| EvCommitTransaction
| EvRollbackTransaction
| EvExecute (sql : string)                 (* conn->Execute(sql) *)
| EvExecuteStmt (nIndex : Z) (param : SqlStmtParameters)
| EvQuery (sql : string)                   (* conn->Query(sql) *)
| EvPing                                   (* m_dbEngine->Ping() *)
| EvCallbackExecute (cb : IQueryCallback)  (* callback->Execute() *)
| EvDeleteCallback (cb : IQueryCallback)   (* delete callback *)
| EvDeleteOperation (op : SqlOperation)    (* delete s *)
| EvDeleteText (sql : string)              (* delete [] of a slot's text *)
| EvDeleteConnection                       (* delete m_dbConnection *)
| EvLog (msg : LogMessage).

(** One slot of a holder: [std::pair<const char*, unique_ptr<QueryResult>>]. *)
Abbreviation SqlResultPair := (option string * option QueryResult)%type.

Record SqlQueryHolder : Type := {
  m_queries : list SqlResultPair
}.

(** [SqlResultQueue] is a [LockedQueue<IQueryCallback*>] (the inbound
    channel filled by the workers) with the backlog of thread-unsafe
    callbacks, its counter, and the tasks handed to the callback pool that
    have not been started yet. *)
Record SqlResultQueue : Type := {
  inbound : list IQueryCallback;
  _threadUnsafeWaitingQueries : list IQueryCallback;
  numUnsafeQueries : Z;
  m_callbackThreads : list IQueryCallback
}.

(** The state every method runs in. *)
Record World : Type := {
  trace : list Event;          (* effects of the calling thread, oldest first *)
  pool_trace : list Event;     (* effects performed on the pool's threads *)
  timer_reads : nat;           (* how often the clock has been read *)
  queues : QueuePtr -> SqlResultQueue;
  holders : HolderPtr -> SqlQueryHolder
}.

(** A non-null pointer designates a live object: the stores are total. *)
Definition upd {A : Type} (f : nat -> A) (p : nat) (a : A) : nat -> A :=
  fun q => if Nat.eqb q p then a else f q.

Definition set_trace (t : list Event) (w : World) : World :=
  {| trace := t; pool_trace := pool_trace w; timer_reads := timer_reads w;
     queues := queues w; holders := holders w |}.

Definition emit (e : Event) (w : World) : World :=
  set_trace (trace w ++ [e]) w.

Definition set_pool_trace (t : list Event) (w : World) : World :=
  {| trace := trace w; pool_trace := t; timer_reads := timer_reads w;
     queues := queues w; holders := holders w |}.

Definition set_timer_reads (n : nat) (w : World) : World :=
  {| trace := trace w; pool_trace := pool_trace w; timer_reads := n;
     queues := queues w; holders := holders w |}.

Definition set_queue (p : QueuePtr) (q : SqlResultQueue) (w : World) : World :=
  {| trace := trace w; pool_trace := pool_trace w; timer_reads := timer_reads w;
     queues := upd (queues w) p q; holders := holders w |}.

Definition set_holder (p : HolderPtr) (h : SqlQueryHolder) (w : World) : World :=
  {| trace := trace w; pool_trace := pool_trace w; timer_reads := timer_reads w;
     queues := queues w; holders := upd (holders w) p h |}.

(** ** LockedQueue *)

(** Modelled from the spec: [LockedQueue] is declared outside the two
    files; the spec describes every queue as first-in first-out: [add]
    appends at the back, [next] removes the front element and reports
    whether there was one.  A loop [while (q.next(s)) body] therefore
    takes the elements from the front, one per iteration, until none is
    left; it is written as a recursion on the content of the queue. *)
Definition LockedQueue_add {A : Type} (x : A) (q : list A) : list A := q ++ [x].

(** ** The physical connection *)

(** The answers of the driver, which is outside the two files.  Each may
    depend on the whole history of effects so far, which makes any
    deterministic connection, healthy or failing, an instance.  The
    results of [BeginTransaction] and [RollbackTransaction] are not looked
    at by the code. *)
Record SqlConnection : Type := {
  drv_Execute : list Event -> string -> bool;
  drv_ExecuteStmt : list Event -> Z -> SqlStmtParameters -> bool;
  drv_Query : list Event -> string -> option QueryResult;
  drv_CommitTransaction : list Event -> bool
}.

Section Operations.

Variable conn : SqlConnection.

(** [LOCK_DB_CONN(conn)] declares a scoped guard. *)
Definition Lock (w : World) : World := emit EvLock w.
Definition Unlock (w : World) : World := emit EvUnlock w.

Definition conn_Execute (sql : string) (w : World) : bool * World :=
  (drv_Execute conn (trace w) sql, emit (EvExecute sql) w).

Definition conn_ExecuteStmt (nIndex : Z) (param : SqlStmtParameters) (w : World)
  : bool * World :=
  (drv_ExecuteStmt conn (trace w) nIndex param, emit (EvExecuteStmt nIndex param) w).

Definition conn_Query (sql : string) (w : World) : option QueryResult * World :=
  (drv_Query conn (trace w) sql, emit (EvQuery sql) w).

Definition conn_BeginTransaction (w : World) : World := emit EvBeginTransaction w.

Definition conn_CommitTransaction (w : World) : bool * World :=
  (drv_CommitTransaction conn (trace w), emit EvCommitTransaction w).

Definition conn_RollbackTransaction (w : World) : World :=
  emit EvRollbackTransaction w.

(** [m_queue->add(m_callback)] through a result-queue pointer. *)
Definition queue_add (p : QueuePtr) (cb : IQueryCallback) (w : World) : World :=
  let q := queues w p in
  set_queue p {| inbound := LockedQueue_add cb (inbound q);
                 _threadUnsafeWaitingQueries := _threadUnsafeWaitingQueries q;
                 numUnsafeQueries := numUnsafeQueries q;
                 m_callbackThreads := m_callbackThreads q |} w.

(** ** SqlQueryHolder *)

(** [SqlQueryHolder::SetResult] *)
Definition SetResult (index : nat) (result : option QueryResult)
  (this : SqlQueryHolder) : SqlQueryHolder :=
  if decide (index < length (m_queries this)) then
    match m_queries this !! index with
    | Some (first, _) =>
        {| m_queries := <[index := (first, result)]> (m_queries this) |}
    | None => this
    end
  else this.

(** The body of the [for] loop of [SqlQueryHolderEx::Execute] at index [i]:
    the slot is read through [m_holder], and the result is written back
    through it. *)
Definition holder_slot (p : HolderPtr) (i : nat) (w : World) : World :=
  match m_queries (holders w p) !! i with
  | Some (Some sql, _) =>
      let '(r, w) := conn_Query sql w in
      set_holder p (SetResult i r (holders w p)) w
  | _ => w
  end.

(** [for (size_t i = 0; i < queries.size(); i++)], with [fuel] bounding the
    number of iterations. *)
Fixpoint holder_loop (fuel : nat) (p : HolderPtr) (i : nat) (w : World) : World :=
  match fuel with
  | O => w
  | S fuel' =>
      if decide (i < length (m_queries (holders w p))) then
        holder_loop fuel' p (S i) (holder_slot p i w)
      else w
  end.

(** ** Execute *)

(** The loop of [SqlTransaction::Execute].  [rest] holds the members from
    index [i] on, so [m_queue[i]] is its head; [exec] is the virtual
    [Execute] of the member.  When [rest] is empty [i] is the size of the
    vector, which [nItems] never exceeds, and the test [i < nItems]
    fails. *)
Fixpoint transaction_loop (exec : SqlOperation -> World -> bool * World)
  (nItems i : Z) (rest : list SqlOperation) (w : World) : bool * World :=
  match rest with
  | pStmt :: rest' =>
      if (i <? nItems)%Z then
        let '(ok, w) := exec pStmt w in
        if negb ok then
          let w := conn_RollbackTransaction w in
          (false, Unlock w)
        else transaction_loop exec nItems (i + 1)%Z rest' w
      else
        let '(r, w) := conn_CommitTransaction w in
        (r, Unlock w)
  | [] =>
      let '(r, w) := conn_CommitTransaction w in
      (r, Unlock w)
  end.

Fixpoint Execute (op : SqlOperation) (w : World) {struct op} : bool * World :=
  match op with
  | SqlPlainRequest m_sql =>
      let w := Lock w in
      let '(r, w) := conn_Execute m_sql w in
      (r, Unlock w)
  | SqlTransaction m_queue =>
      match m_queue with
      | [] => (true, w)
      | _ :: _ =>
          let w := Lock w in
          let w := conn_BeginTransaction w in
          let nItems := int_of_size (length m_queue) in
          transaction_loop Execute nItems 0%Z m_queue w
      end
  | SqlPreparedRequest m_nIndex m_param =>
      let w := Lock w in
      let '(r, w) := conn_ExecuteStmt m_nIndex m_param w in
      (r, Unlock w)
  | SqlQuery m_sql m_callback m_queue =>
      match m_callback, m_queue with
      | Some callback, Some queue =>
          let w := Lock w in
          let '(result, w) := conn_Query m_sql w in
          let callback := Callback_SetResult result callback in
          let w := queue_add queue callback w in
          (true, Unlock w)
      | _, _ => (false, w)
      end
  | SqlQueryHolderEx m_holder m_callback m_queue =>
      match m_holder, m_callback, m_queue with
      | Some holder, Some callback, Some queue =>
          let w := Lock w in
          let w := holder_loop (length (m_queries (holders w holder))) holder 0 w in
          let w := queue_add queue callback w in
          (true, Unlock w)
      | _, _, _ => (false, w)
      end
  end.

End Operations.

(** ** SqlQueryHolder: slot mutation *)

Section Holder.

(** The size of the formatting buffer.  The macro is defined outside the
    two files and is taken as a parameter. *)
Variable MAX_QUERY_LEN : nat.

(** [SqlQueryHolder::SetQuery].  [mangos_strdup] copies the text into the
    slot. *)
Definition SetQuery (index : nat) (sql : string) (this : SqlQueryHolder)
  (w : World) : bool * SqlQueryHolder * World :=
  if decide (length (m_queries this) <= index) then
    (false, this,
     emit (EvLog (LogIndexOutOfRange index (length (m_queries this)) sql)) w)
  else
    match m_queries this !! index with
    | Some (Some old, _) =>
        (false, this, emit (EvLog (LogSlotOccupied index old sql)) w)
    | _ =>
        (true, {| m_queries := <[index := (Some sql, None)]> (m_queries this) |}, w)
    end.

(** The C library's [vsnprintf(buf, n, format, ap)] as ISO C defines it.
    [expansion] is the text the format and its arguments expand to, or
    [None] when a conversion fails.  At most [n - 1] characters and the
    terminator are written; the return value is the length of the whole
    expansion whether or not it fitted, and is negative only on failure. *)
Definition vsnprintf (n : nat) (expansion : option string) : string * Z :=
  match expansion with
  | Some s =>
      if (Z.of_nat (String.length s) <=? INT_MAX)%Z
      then (String.substring 0 (n - 1) s, Z.of_nat (String.length s))
      else (String.substring 0 (n - 1) s, (-1)%Z)
  | None => (EmptyString, (-1)%Z)
  end.

(** [SqlQueryHolder::SetPQuery].  A null [format] is [None]. *)
Definition SetPQuery (index : nat) (format : option string)
  (expansion : option string) (this : SqlQueryHolder) (w : World)
  : bool * SqlQueryHolder * World :=
  match format with
  | None => (false, this, emit (EvLog (LogEmptyFormat index)) w)
  | Some fmt =>
      let '(szQuery, res) := vsnprintf MAX_QUERY_LEN expansion in
      if (res =? -1)%Z then
        (false, this, emit (EvLog (LogTruncated fmt)) w)
      else SetQuery index szQuery this w
  end.

(** [SqlQueryHolder::TakeResult].  The returned pointer is moved out of the
    slot, which is left holding the empty pointer. *)
Definition TakeResult (index : nat) (this : SqlQueryHolder) (w : World)
  : option QueryResult * SqlQueryHolder * World :=
  if decide (index < length (m_queries this)) then
    match m_queries this !! index with
    | Some (first, second) =>
        let w := match first with
                 | Some text => emit (EvDeleteText text) w
                 | None => w
                 end in
        (second, {| m_queries := <[index := (None, None)]> (m_queries this) |}, w)
    | None => (None, this, w)
    end
  else (None, this, w).

(** [SqlQueryHolder::DeleteAllResults] *)
Definition DeleteAllResults (this : SqlQueryHolder) : SqlQueryHolder :=
  {| m_queries := map (fun slot : SqlResultPair => (fst slot, None)) (m_queries this) |}.

(** [SqlQueryHolder::SetSize]: [std::vector::resize]. *)
Definition SetSize (size : nat) (this : SqlQueryHolder) : SqlQueryHolder :=
  {| m_queries := take size (m_queries this)
                  ++ replicate (size - length (m_queries this)) (None, None) |}.

End Holder.

(** ** SqlResultQueue *)

Section ResultQueue.

(** The clock of [WorldTimer], declared outside the two files: the value of
    the [k]-th reading, and the difference of two readings. *)
Variable getMSTime : nat -> Z.
Variable getMSTimeDiff : Z -> Z -> Z.

Definition WorldTimer_getMSTime (w : World) : Z * World :=
  (getMSTime (timer_reads w), set_timer_reads (S (timer_reads w)) w).

Definition WorldTimer_getMSTimeDiffToNow (oldMSTime : Z) (w : World) : Z * World :=
  let '(now, w) := WorldTimer_getMSTime w in
  (getMSTimeDiff oldMSTime now, w).

(** Modelled from the spec: [callback->Execute()] is the delivery action
    of the callback, whose body is outside the two files; the delivery is
    recorded with the result the callback carries.  [delete callback]
    releases it. *)
Definition Callback_Execute (cb : IQueryCallback) (w : World) : World :=
  emit (EvCallbackExecute cb) w.

Definition delete_callback (cb : IQueryCallback) (w : World) : World :=
  emit (EvDeleteCallback cb) w.

(** The first loop of [Update]: [while (next(callback))] over the inbound
    channel.  A thread-safe callback becomes a task of the pool. *)
Fixpoint Update_collect (pending : list IQueryCallback)
  (unsafe : list IQueryCallback) (num : Z) (tasks : list IQueryCallback)
  : SqlResultQueue :=
  match pending with
  | [] =>
      {| inbound := []; _threadUnsafeWaitingQueries := unsafe;
         numUnsafeQueries := num; m_callbackThreads := tasks |}
  | callback :: pending' =>
      if negb (IsThreadSafe callback) then
        Update_collect pending' (LockedQueue_add callback unsafe)
                       (uint32 (num + 1)) tasks
      else
        Update_collect pending' unsafe num (tasks ++ [callback])
  end.

(** Modelled from the spec: the pool is declared outside the two files;
    [m_callbackThreads->processWorkload()] starts the queued tasks, each of
    which runs [callback->Execute(); delete callback;] on a thread of the
    pool, and [job.wait()] returns when they are done.  How the pool
    interleaves them with the caller is not represented: their effects go
    to [pool_trace], in submission order. *)
Definition processWorkload (this : SqlResultQueue) (w : World)
  : SqlResultQueue * World :=
  ({| inbound := inbound this;
      _threadUnsafeWaitingQueries := _threadUnsafeWaitingQueries this;
      numUnsafeQueries := numUnsafeQueries this;
      m_callbackThreads := [] |},
   set_pool_trace
     (pool_trace w
      ++ flat_map (fun cb => [EvCallbackExecute cb; EvDeleteCallback cb])
                  (m_callbackThreads this)) w).

(** The second loop of [Update]: [while (_threadUnsafeWaitingQueries.next(s))]
    with its [break].  The clock is read only when [timeout] is not zero. *)
Fixpoint Update_drain (timeout begin : Z) (unsafe : list IQueryCallback)
  (num : Z) (w : World) : list IQueryCallback * Z * World :=
  match unsafe with
  | [] => ([], num, w)
  | s :: unsafe' =>
      let w := Callback_Execute s w in
      let w := delete_callback s w in
      let num := uint32 (num - 1) in
      if (timeout =? 0)%Z then Update_drain timeout begin unsafe' num w
      else
        let '(diff, w) := WorldTimer_getMSTimeDiffToNow begin w in
        if (diff >? timeout)%Z then (unsafe', num, w)
        else Update_drain timeout begin unsafe' num w
  end.

(** [SqlResultQueue::Update].  [job.wait()] returns once the tasks started
    by [processWorkload] are done; it changes nothing else. *)
Definition Update (timeout : Z) (this : SqlResultQueue) (w : World)
  : SqlResultQueue * World :=
  let '(begin, w) := WorldTimer_getMSTime w in
  let this := Update_collect (inbound this) (_threadUnsafeWaitingQueries this)
                             (numUnsafeQueries this) (m_callbackThreads this) in
  let '(this, w) := processWorkload this w in
  let '(unsafe, num, w) :=
    Update_drain timeout begin (_threadUnsafeWaitingQueries this)
                 (numUnsafeQueries this) w in
  let w := if (num >? 1000)%Z then emit (EvLog (LogUnsafeRemaining num)) w
           else w in
  ({| inbound := inbound this; _threadUnsafeWaitingQueries := unsafe;
      numUnsafeQueries := num; m_callbackThreads := m_callbackThreads this |}, w).

(** The loop of [SqlResultQueue::CancelAll]. *)
Fixpoint CancelAll_loop (pending : list IQueryCallback) (w : World) : World :=
  match pending with
  | [] => w
  | cb :: pending' =>
      let cb := Callback_SetResult None cb in
      let w := Callback_Execute cb w in
      let w := delete_callback cb w in
      CancelAll_loop pending' w
  end.

(** [SqlResultQueue::CancelAll] *)
Definition CancelAll (this : SqlResultQueue) (w : World) : SqlResultQueue * World :=
  ({| inbound := [];
      _threadUnsafeWaitingQueries := _threadUnsafeWaitingQueries this;
      numUnsafeQueries := numUnsafeQueries this;
      m_callbackThreads := m_callbackThreads this |},
   CancelAll_loop (inbound this) w).

End ResultQueue.

(** ** SqlDelayThread *)

(** Modelled from the spec: [Database] is declared outside the two files.
    The worker uses its delayed queue, from which [NextDelayedOperation]
    takes the front operation, and the ping interval answered by
    [GetPingIntervall].  One worker is represented, so the engine is held
    by value. *)
Record Database : Type := {
  m_delayQueue : list SqlOperation;
  m_pingIntervallms : Z
}.

Record SqlDelayThread : Type := {
  m_dbEngine : Database;
  m_running : bool;
  m_serialDelayQueue : list SqlOperation
}.

(** What producers enqueue while the worker sleeps: operations for the
    delayed queue and for the serial queue. *)
Definition Arrivals : Type := (list SqlOperation * list SqlOperation)%type.

Section Worker.

Variable conn : SqlConnection.

(** [SqlDelayThread::addSerialOperation] *)
Definition addSerialOperation (op : SqlOperation) (this : SqlDelayThread)
  : SqlDelayThread :=
  {| m_dbEngine := m_dbEngine this; m_running := m_running this;
     m_serialDelayQueue := LockedQueue_add op (m_serialDelayQueue this) |}.

(** [SqlDelayThread::Stop] *)
Definition Stop (this : SqlDelayThread) : SqlDelayThread :=
  {| m_dbEngine := m_dbEngine this; m_running := false;
     m_serialDelayQueue := m_serialDelayQueue this |}.

(** [while (queue.next(s)) { s->Execute(m_dbConnection); delete s; }] *)
Fixpoint ProcessRequests_loop (queue : list SqlOperation) (w : World) : World :=
  match queue with
  | [] => w
  | s :: queue' =>
      let '(_, w) := Execute conn s w in
      let w := emit (EvDeleteOperation s) w in
      ProcessRequests_loop queue' w
  end.

(** [SqlDelayThread::ProcessRequests]: first the delayed queue of the
    engine, then the serial queue of this worker. *)
Definition ProcessRequests (this : SqlDelayThread) (w : World)
  : SqlDelayThread * World :=
  let w := ProcessRequests_loop (m_delayQueue (m_dbEngine this)) w in
  let w := ProcessRequests_loop (m_serialDelayQueue this) w in
  ({| m_dbEngine := {| m_delayQueue := [];
                       m_pingIntervallms := m_pingIntervallms (m_dbEngine this) |};
      m_running := m_running this;
      m_serialDelayQueue := [] |}, w).

(** [SqlDelayThread::~SqlDelayThread] *)
Definition destroy_SqlDelayThread (this : SqlDelayThread) (w : World)
  : SqlDelayThread * World :=
  let '(this, w) := ProcessRequests this w in
  (this, emit EvDeleteConnection w).

Definition loopSleepms : Z := 10%Z.

(** The producers' side of one sleep. *)
Definition enqueue (a : Arrivals) (this : SqlDelayThread) : SqlDelayThread :=
  {| m_dbEngine := {| m_delayQueue := m_delayQueue (m_dbEngine this) ++ fst a;
                      m_pingIntervallms := m_pingIntervallms (m_dbEngine this) |};
     m_running := m_running this;
     m_serialDelayQueue := m_serialDelayQueue this ++ snd a |}.

(** One turn of the [while (m_running)] loop of [run].  The test
    [(loopCounter++) >= pingEveryLoop] compares the value the counter had
    before the increment. *)
Definition run_iteration (pingEveryLoop : Z) (a : Arrivals)
  (this : SqlDelayThread) (loopCounter : Z) (w : World)
  : SqlDelayThread * Z * World :=
  let this := enqueue a this in
  let '(this, w) := ProcessRequests this w in
  let tested := loopCounter in
  let loopCounter := uint32 (loopCounter + 1) in
  if (tested >=? pingEveryLoop)%Z then
    let loopCounter := 0%Z in
    let w := emit EvPing w in
    let '(_, w) := conn_Query conn "SELECT 1" w in
    (this, loopCounter, w)
  else (this, loopCounter, w).

(** The loop of [run].  The flag is cleared by [Stop] from another thread;
    [schedule] has one entry for every time the loop finds it still set,
    and [Stop] has been called when the schedule is used up. *)
Fixpoint run_loop (pingEveryLoop : Z) (schedule : list Arrivals)
  (this : SqlDelayThread) (loopCounter : Z) (w : World)
  : SqlDelayThread * Z * World :=
  if m_running this then
    match schedule with
    | [] => (Stop this, loopCounter, w)
    | a :: schedule' =>
        let '(this, loopCounter, w) :=
          run_iteration pingEveryLoop a this loopCounter w in
        run_loop pingEveryLoop schedule' this loopCounter w
    end
  else (this, loopCounter, w).

(** [SqlDelayThread::run] *)
Definition run (schedule : list Arrivals) (this : SqlDelayThread) (w : World)
  : SqlDelayThread * Z * World :=
  let pingEveryLoop := (uint32 (m_pingIntervallms (m_dbEngine this)) / loopSleepms)%Z in
  run_loop pingEveryLoop schedule this 0%Z w.

End Worker.

(** ** Vocabulary of the statements *)

(** [all_succeed conn ops w w']: running the operations [ops] one after the
    other from [w], each [Execute] returns [true], and the last one leaves
    the world [w']. *)
Inductive all_succeed (conn : SqlConnection)
  : list SqlOperation -> World -> World -> Prop :=
| all_succeed_nil (w : World) : all_succeed conn [] w w
| all_succeed_cons (op : SqlOperation) (ops : list SqlOperation) (w w1 w2 : World) :
    Execute conn op w = (true, w1) ->
    all_succeed conn ops w1 w2 ->
    all_succeed conn (op :: ops) w w2.

(** The calls an operation may make on its connection. *)
Definition is_conn_event (e : Event) : bool :=
  match e with
  | EvLock | EvUnlock | EvBeginTransaction | EvCommitTransaction
  | EvRollbackTransaction | EvExecute _ | EvExecuteStmt _ _ | EvQuery _ => true
  | _ => false
  end.

Definition is_ping (e : Event) : bool :=
  match e with EvPing => true | _ => false end.

Definition is_delivery (e : Event) : bool :=
  match e with EvCallbackExecute _ => true | _ => false end.

Definition is_delete_operation (e : Event) : bool :=
  match e with EvDeleteOperation _ => true | _ => false end.

(** How many events of a trace satisfy [f]. *)
Fixpoint count_events (f : Event -> bool) (t : list Event) : nat :=
  match t with
  | [] => 0
  | e :: t' => (if f e then 1 else 0) + count_events f t'
  end.

(** The events of one delivery followed by the release of the callback. *)
Definition delivered (cb : IQueryCallback) : list Event :=
  [EvCallbackExecute cb; EvDeleteCallback cb].

(** The batch of a holder as the spec words it: going through the slots in
    index order, a slot whose text is present is run on the connection and
    receives the answer, present or absent; a slot without text is passed
    over.  [t] is the trace when the slot is reached. *)
Fixpoint run_slots (conn : SqlConnection) (slots : list SqlResultPair)
  (t : list Event) : list SqlResultPair * list Event :=
  match slots with
  | [] => ([], t)
  | (Some sql, _) :: slots' =>
      let '(done, t') := run_slots conn slots' (t ++ [EvQuery sql]) in
      ((Some sql, drv_Query conn t sql) :: done, t')
  | (None, r) :: slots' =>
      let '(done, t') := run_slots conn slots' t in
      ((None, r) :: done, t')
  end.

(** The texts present in a sequence of slots, in index order. *)
Definition slot_texts (slots : list SqlResultPair) : list string :=
  omap fst slots.

(** The thread-unsafe and the thread-safe callbacks of a sequence, in
    order. *)
Definition unsafe_of (l : list IQueryCallback) : list IQueryCallback :=
  List.filter (fun cb => negb (IsThreadSafe cb)) l.

Definition safe_of (l : list IQueryCallback) : list IQueryCallback :=
  List.filter IsThreadSafe l.

(** The line [Update] logs when the counter of the backlog is above 1000. *)
Definition warning (num : Z) : list Event :=
  if (num >? 1000)%Z then [EvLog (LogUnsafeRemaining num)] else [].

(** The workers' side between two calls of [Update]: [add] of each of
    [more] to the inbound channel. *)
Definition feed (more : list IQueryCallback) (q : SqlResultQueue) : SqlResultQueue :=
  {| inbound := inbound q ++ more;
     _threadUnsafeWaitingQueries := _threadUnsafeWaitingQueries q;
     numUnsafeQueries := numUnsafeQueries q;
     m_callbackThreads := m_callbackThreads q |}.

(** The deliveries and releases of callbacks in a trace. *)
Definition is_callback_event (e : Event) : bool :=
  match e with
  | EvCallbackExecute _ | EvDeleteCallback _ => true
  | _ => false
  end.

Definition callback_events (t : list Event) : list Event :=
  List.filter is_callback_event t.

(** What [getMSTimeDiffToNow(begin)] answers at the [k]-th reading of the
    clock. *)
Definition elapsed (getMSTime : nat -> Z) (getMSTimeDiff : Z -> Z -> Z)
  (begin : Z) (k : nat) : Z :=
  getMSTimeDiff begin (getMSTime k).

(** A clock that advances by one second between two readings. *)
Definition fake_getMSTime (k : nat) : Z := (1000 * Z.of_nat k)%Z.
Definition fake_getMSTimeDiff (old new : Z) : Z := (new - old)%Z.

(** [processed conn ops w w']: from [w], each operation of [ops] in turn
    has had its [Execute] called once and has been deleted right after,
    which leaves [w']. *)
Inductive processed (conn : SqlConnection)
  : list SqlOperation -> World -> World -> Prop :=
| processed_nil (w : World) : processed conn [] w w
| processed_cons (s : SqlOperation) (ops : list SqlOperation) (w w' : World) :
    processed conn ops (emit (EvDeleteOperation s) (Execute conn s w).2) w' ->
    processed conn (s :: ops) w w'.

(** The deletions of operations in a trace. *)
Definition deleted_operations (t : list Event) : list Event :=
  List.filter is_delete_operation t.

(** ** Instrumented collaborators for the examples *)

(** A connection on which every statement and query containing no text at
    all fails, and everything else succeeds. *)
Definition fake_conn : SqlConnection :=
  {| drv_Execute := fun _ sql => negb (String.eqb sql "");
     drv_ExecuteStmt := fun _ _ _ => true;
     drv_Query := fun _ sql => if String.eqb sql "" then None else Some [[sql]];
     drv_CommitTransaction := fun _ => true |}.

Definition empty_queue : SqlResultQueue :=
  {| inbound := []; _threadUnsafeWaitingQueries := [];
     numUnsafeQueries := 0%Z; m_callbackThreads := [] |}.

Definition world0 : World :=
  {| trace := []; pool_trace := []; timer_reads := 0;
     queues := fun _ => empty_queue;
     holders := fun _ => {| m_queries := [] |} |}.

Definition callback (id : nat) (safe : bool) : IQueryCallback :=
  {| cb_id := id; cb_threadSafe := safe; cb_result := None |}.

(** [extends w w']: [w'] is [w] after some further calls on the
    connection; the pool and the clock are as before. *)
Definition extends (w w' : World) : Prop :=
  (exists evs, trace w' = trace w ++ evs /\ forallb is_conn_event evs = true)
  /\ pool_trace w' = pool_trace w
  /\ timer_reads w' = timer_reads w.

(** Induction over operations that reaches the members of a transaction. *)
Section SqlOperation_nested_ind.

Variable P : SqlOperation -> Prop.
Hypothesis H_plain : forall sql, P (SqlPlainRequest sql).
Hypothesis H_transaction :
  forall members, Forall P members -> P (SqlTransaction members).
Hypothesis H_prepared : forall i p, P (SqlPreparedRequest i p).
Hypothesis H_query : forall sql cb q, P (SqlQuery sql cb q).
Hypothesis H_holder : forall h cb q, P (SqlQueryHolderEx h cb q).

Fixpoint SqlOperation_nested_ind (op : SqlOperation) : P op :=
  match op with
  | SqlPlainRequest sql => H_plain sql
  | SqlTransaction members =>
      H_transaction members
        ((fix members_ind (l : list SqlOperation) : Forall P l :=
            match l with
            | [] => @List.Forall_nil _ P
            | x :: l' => @List.Forall_cons _ P x l' (SqlOperation_nested_ind x) (members_ind l')
            end) members)
  | SqlPreparedRequest i p => H_prepared i p
  | SqlQuery sql cb q => H_query sql cb q
  | SqlQueryHolderEx h cb q => H_holder h cb q
  end.

End SqlOperation_nested_ind.

(** ** Constructors, destructors and the remaining methods *)

(** [SqlDelayThread::SqlDelayThread] *)
Definition new_SqlDelayThread (db : Database) : SqlDelayThread :=
  {| m_dbEngine := db; m_running := true; m_serialDelayQueue := [] |}.

(** [SqlDelayThread::HasAsyncQuery]: [!m_serialDelayQueue.empty_unsafe()]. *)
Definition HasAsyncQuery (this : SqlDelayThread) : bool :=
  match m_serialDelayQueue this with
  | [] => false
  | _ :: _ => true
  end.

(** [SqlResultQueue::SqlResultQueue]: the counter starts at zero and the
    pool is started with no task queued. *)
Definition new_SqlResultQueue : SqlResultQueue :=
  {| inbound := []; _threadUnsafeWaitingQueries := [];
     numUnsafeQueries := 0%Z; m_callbackThreads := [] |}.

(** The loop of [SqlTransaction::~SqlTransaction]:
    [while (!m_queue.empty()) { delete m_queue.back(); m_queue.pop_back(); }],
    with [fuel] bounding the number of iterations. *)
Fixpoint SqlTransaction_destructor_loop (fuel : nat)
  (m_queue : list SqlOperation) (w : World) : list SqlOperation * World :=
  match fuel with
  | O => (m_queue, w)
  | S fuel' =>
      match last m_queue with
      | None => (m_queue, w)
      | Some back =>
          let w := emit (EvDeleteOperation back) w in
          SqlTransaction_destructor_loop fuel' (removelast m_queue) w
      end
  end.

(** [SqlTransaction::~SqlTransaction] *)
Definition SqlTransaction_destructor (m_queue : list SqlOperation) (w : World)
  : list SqlOperation * World :=
  SqlTransaction_destructor_loop (length m_queue) m_queue w.

(** The loop of [SqlQueryHolder::~SqlQueryHolder]:
    [for (size_t i = 0; i < m_queries.size(); i++)], with [fuel] bounding
    the number of iterations. *)
Fixpoint SqlQueryHolder_destructor_loop (fuel i : nat) (this : SqlQueryHolder)
  (w : World) : World :=
  match fuel with
  | O => w
  | S fuel' =>
      if decide (i < length (m_queries this)) then
        let w := match m_queries this !! i with
                 | Some (Some text, _) => emit (EvDeleteText text) w
                 | _ => w
                 end in
        SqlQueryHolder_destructor_loop fuel' (S i) this w
      else w
  end.

(** [SqlQueryHolder::~SqlQueryHolder] *)
Definition SqlQueryHolder_destructor (this : SqlQueryHolder) (w : World) : World :=
  SqlQueryHolder_destructor_loop (length (m_queries this)) 0 this w.

(** ** Further vocabulary *)

(** The events [w'] has in addition to [w], when [w'] comes after [w]. *)
Definition new_events (w w' : World) : list Event :=
  drop (length (trace w)) (trace w').

(** The discipline of the guard.  [guard_depth d t] follows the events of
    [t] from a state in which [d] guards are alive: a [Lock] adds one, an
    [Unlock] needs one and takes it away, and any other call on the
    connection needs one.  The result is the number of guards alive at the
    end, or [None] when a need is not met. *)
Fixpoint guard_depth (d : nat) (t : list Event) : option nat :=
  match t with
  | [] => Some d
  | EvLock :: t' => guard_depth (S d) t'
  | EvUnlock :: t' =>
      match d with
      | O => None
      | S d' => guard_depth d' t'
      end
  | e :: t' =>
      if is_conn_event e then
        match d with
        | O => None
        | S _ => guard_depth d t'
        end
      else guard_depth d t'
  end.

(** The texts released in a trace. *)
Definition freed_texts (t : list Event) : list string :=
  omap (fun e => match e with EvDeleteText text => Some text | _ => None end) t.

(** A consumer taking the results of the slots [indices], in that order. *)
Fixpoint take_results (indices : list nat) (this : SqlQueryHolder) (w : World)
  : SqlQueryHolder * World :=
  match indices with
  | [] => (this, w)
  | index :: indices' =>
      let '(_, this, w) := TakeResult index this w in
      take_results indices' this w
  end.

(** Producers calling [addSerialOperation] for each of [ops], in order. *)
Definition submit_serial (ops : list SqlOperation) (this : SqlDelayThread)
  : SqlDelayThread :=
  fold_left (fun this op => addSerialOperation op this) ops this.

(** The operations a run of the worker finds in its queues, turn by turn:
    on each turn the delayed queue and then the serial queue. *)
Definition run_operations (this : SqlDelayThread) (schedule : list Arrivals)
  : list SqlOperation :=
  match schedule with
  | [] => []
  | a :: schedule' =>
      (m_delayQueue (m_dbEngine this) ++ fst a)
      ++ (m_serialDelayQueue this ++ snd a)
      ++ flat_map (fun a : Arrivals => fst a ++ snd a) schedule'
  end.

(** The backlog holds thread-unsafe callbacks only, and its counter is its
    length. *)
Definition backlog_consistent (q : SqlResultQueue) : Prop :=
  Forall (fun cb => IsThreadSafe cb = false) (_threadUnsafeWaitingQueries q)
  /\ numUnsafeQueries q = Z.of_nat (length (_threadUnsafeWaitingQueries q)).

(** [inside t]: the events [t] respect the discipline when a guard is
    alive before them, and leave the guards as they found them.
    [balanced t]: they do so from any state, also with no guard alive. *)
Definition inside (t : list Event) : Prop :=
  forall d, guard_depth (S d) t = Some (S d).

Definition balanced (t : list Event) : Prop :=
  forall d, guard_depth d t = Some d.

(** The counter of [run] as the spec words a turn: "increment a tick
    counter; once the counter reaches the cadence, reset the counter and
    issue a probe".  [claimed_ticks pingEveryLoop turns c] is the counter
    and the number of probes after [turns] such turns from the counter
    [c]. *)
Fixpoint claimed_ticks (pingEveryLoop : Z) (turns : nat) (loopCounter : Z)
  : Z * nat :=
  match turns with
  | O => (loopCounter, 0)
  | S turns' =>
      let loopCounter := uint32 (loopCounter + 1) in
      if (loopCounter >=? pingEveryLoop)%Z then
        let '(c, probes) := claimed_ticks pingEveryLoop turns' 0%Z in
        (c, S probes)
      else claimed_ticks pingEveryLoop turns' loopCounter
  end.

(** The operations a run of the worker finds in its queues, one list for
    each turn. *)
Definition turn_operations (this : SqlDelayThread) (schedule : list Arrivals)
  : list (list SqlOperation) :=
  match schedule with
  | [] => []
  | a :: schedule' =>
      ((m_delayQueue (m_dbEngine this) ++ fst a)
       ++ (m_serialDelayQueue this ++ snd a))
      :: map (fun a : Arrivals => fst a ++ snd a) schedule'
  end.

(** What the destructor finds in the queues after a run and the arrivals
    [late]. *)
Definition teardown_operations (this : SqlDelayThread) (schedule : list Arrivals)
  (late : Arrivals) : list SqlOperation :=
  match schedule with
  | [] => (m_delayQueue (m_dbEngine this) ++ fst late)
          ++ (m_serialDelayQueue this ++ snd late)
  | _ :: _ => fst late ++ snd late
  end.

(** The probe of [run]: [m_dbEngine->Ping()] and then [Query("SELECT 1")]. *)
Definition probe (conn : SqlConnection) (w : World) : World :=
  (conn_Query conn "SELECT 1" (emit EvPing w)).2.

(** [turns_processed conn turns w w']: from [w], turn after turn, each
    operation of the turn has had its [Execute] called once and has been
    deleted right after, in order, and the turn has ended with or without
    a probe; this leaves [w']. *)
Inductive turns_processed (conn : SqlConnection)
  : list (list SqlOperation) -> World -> World -> Prop :=
| turns_processed_nil (w : World) : turns_processed conn [] w w
| turns_processed_cons (ops : list SqlOperation) (turns : list (list SqlOperation))
    (w w1 w2 w3 : World) :
    processed conn ops w w1 ->
    w2 = w1 \/ w2 = probe conn w1 ->
    turns_processed conn turns w2 w3 ->
    turns_processed conn (ops :: turns) w w3.

(** * Proofs *)

(** ** Basic facts *)

Lemma int_of_size_small (n : nat) :
  (Z.of_nat n <= INT_MAX)%Z -> int_of_size n = Z.of_nat n.
Proof.
  unfold int_of_size, INT_MAX. intros Hn.
  rewrite Z.mod_small; lia.
Qed.

(** The [int] never exceeds the size it was read from. *)
Lemma int_of_size_le (n : nat) : (int_of_size n <= Z.of_nat n)%Z.
Proof.
  unfold int_of_size.
  pose proof (Z.mod_le (Z.of_nat n + 2 ^ 31) (2 ^ 32) ltac:(lia) ltac:(lia)).
  lia.
Qed.

Lemma trace_emit (e : Event) (w : World) : trace (emit e w) = trace w ++ [e].
Proof. reflexivity. Qed.

Lemma count_events_app (f : Event -> bool) (t1 t2 : list Event) :
  count_events f (t1 ++ t2) = count_events f t1 + count_events f t2.
Proof.
  induction t1 as [|e t1 IH]; simpl; [reflexivity|].
  rewrite IH. lia.
Qed.

(** ** SqlTransaction::Execute *)

Section Transaction.

Variable conn : SqlConnection.

Lemma transaction_loop_rollback (nItems : Z) (done : list SqlOperation) :
  forall (i : Z) (failing : SqlOperation) (rest : list SqlOperation)
         (w0 w1 w2 : World),
    all_succeed conn done w0 w1 ->
    Execute conn failing w1 = (false, w2) ->
    (i + Z.of_nat (length done) < nItems)%Z ->
    transaction_loop conn (Execute conn) nItems i (done ++ failing :: rest) w0
    = (false, Unlock (conn_RollbackTransaction w2)).
Proof.
  induction done as [|op done IH]; intros i failing rest w0 w1 w2 Hall Hfail Hi.
  - inversion Hall; subst. simpl in *.
    destruct (Z.ltb_spec i nItems); [|lia].
    rewrite Hfail. reflexivity.
  - inversion Hall as [|? ? ? wm ? Hop Hrest]; subst. simpl in *.
    destruct (Z.ltb_spec i nItems); [|lia].
    rewrite Hop. simpl.
    apply IH with (w1 := w1); [assumption|assumption|lia].
Qed.

Lemma transaction_loop_commit (nItems : Z) (members : list SqlOperation) :
  forall (i : Z) (w0 w1 : World),
    all_succeed conn members w0 w1 ->
    (i + Z.of_nat (length members) <= nItems)%Z ->
    transaction_loop conn (Execute conn) nItems i members w0
    = (drv_CommitTransaction conn (trace w1),
       Unlock (emit EvCommitTransaction w1)).
Proof.
  induction members as [|op members IH]; intros i w0 w1 Hall Hi.
  - inversion Hall; subst. reflexivity.
  - inversion Hall as [|? ? ? wm ? Hop Hrest]; subst. simpl in *.
    destruct (Z.ltb_spec i nItems); [|lia].
    rewrite Hop. simpl. apply IH; [assumption|lia].
Qed.

(** Either every member succeeds, or there is a first one that fails. *)
Lemma all_succeed_or_first_failure (members : list SqlOperation) :
  forall w0 : World,
    (exists w1, all_succeed conn members w0 w1)
    \/ (exists done failing rest w1 w2,
          members = done ++ failing :: rest
          /\ all_succeed conn done w0 w1
          /\ Execute conn failing w1 = (false, w2)).
Proof.
  induction members as [|op members IH]; intros w0.
  - left. exists w0. constructor.
  - destruct (Execute conn op w0) as [ok wm] eqn:Hop. destruct ok.
    + destruct (IH wm) as [[w1 Hall]|(done & failing & rest & w1 & w2 & -> & Hall & Hfail)].
      * left. exists w1. econstructor; eassumption.
      * right. exists (op :: done), failing, rest, w1, w2.
        split; [reflexivity|]. split; [|assumption].
        econstructor; eassumption.
    + right. exists [], op, members, w0, wm.
      split; [reflexivity|]. split; [constructor|assumption].
Qed.

(** *** What an operation may touch *)

Lemma extends_refl (w : World) : extends w w.
Proof.
  split; [|split; reflexivity].
  exists []. rewrite app_nil_r. split; reflexivity.
Qed.

Lemma extends_trans (w1 w2 w3 : World) :
  extends w1 w2 -> extends w2 w3 -> extends w1 w3.
Proof.
  intros [(e1 & Ht1 & Hc1) [Hp1 Hr1]] [(e2 & Ht2 & Hc2) [Hp2 Hr2]].
  split; [|split; congruence].
  exists (e1 ++ e2). rewrite Ht2, Ht1, app_assoc. split; [reflexivity|].
  rewrite forallb_app, Hc1, Hc2. reflexivity.
Qed.

Lemma extends_emit (e : Event) (w : World) :
  is_conn_event e = true -> extends w (emit e w).
Proof.
  intros He. split; [|split; reflexivity].
  exists [e]. split; [reflexivity|]. simpl. rewrite He. reflexivity.
Qed.

Lemma extends_same_trace (w w' : World) :
  trace w' = trace w -> pool_trace w' = pool_trace w ->
  timer_reads w' = timer_reads w -> extends w w'.
Proof.
  intros Ht Hp Hr. split; [|split; assumption].
  exists []. rewrite app_nil_r. split; [assumption|reflexivity].
Qed.

Lemma extends_emit_r (e : Event) (w w1 : World) :
  extends w w1 -> is_conn_event e = true -> extends w (emit e w1).
Proof.
  intros H He. eapply extends_trans; [exact H|apply extends_emit, He].
Qed.

Lemma extends_queue_add (p : QueuePtr) (cb : IQueryCallback) (w w1 : World) :
  extends w w1 -> extends w (queue_add p cb w1).
Proof.
  intros H. eapply extends_trans; [exact H|].
  apply extends_same_trace; reflexivity.
Qed.

Lemma extends_set_holder (p : HolderPtr) (h : SqlQueryHolder) (w w1 : World) :
  extends w w1 -> extends w (set_holder p h w1).
Proof.
  intros H. eapply extends_trans; [exact H|].
  apply extends_same_trace; reflexivity.
Qed.

(** Peels the effects off the final world, last one first. *)
Ltac extends_tac :=
  repeat first
    [ apply extends_refl
    | apply extends_emit_r; [|reflexivity]
    | apply extends_queue_add
    | apply extends_set_holder ].

Lemma holder_slot_extends (p : HolderPtr) (i : nat) (w : World) :
  extends w (holder_slot conn p i w).
Proof.
  unfold holder_slot.
  destruct (m_queries (holders w p) !! i) as [[[sql|] r]|]; try apply extends_refl.
  unfold conn_Query. extends_tac.
Qed.

Lemma holder_loop_extends (fuel : nat) (p : HolderPtr) :
  forall (i : nat) (w : World), extends w (holder_loop conn fuel p i w).
Proof.
  induction fuel as [|fuel IH]; intros i w; simpl; [apply extends_refl|].
  destruct (decide (i < length (m_queries (holders w p)))); [|apply extends_refl].
  eapply extends_trans; [apply holder_slot_extends|apply IH].
Qed.

Lemma transaction_loop_extends (nItems : Z) (members : list SqlOperation) :
  Forall (fun op => forall w, extends w (Execute conn op w).2) members ->
  forall (i : Z) (w : World),
    extends w (transaction_loop conn (Execute conn) nItems i members w).2.
Proof.
  induction 1 as [|op members Hop _ IH]; intros i w; simpl;
    [unfold Unlock; extends_tac|].
  destruct (i <? nItems)%Z; [|unfold Unlock; simpl; extends_tac].
  specialize (Hop w). destruct (Execute conn op w) as [ok wm]. simpl in Hop.
  destruct ok; simpl.
  - eapply extends_trans; [exact Hop|apply IH].
  - unfold Unlock, conn_RollbackTransaction.
    apply extends_emit_r; [|reflexivity]. apply extends_emit_r; [exact Hop|reflexivity].
Qed.

(** An operation only adds calls on the connection to the trace. *)
Lemma Execute_extends (op : SqlOperation) :
  forall w : World, extends w (Execute conn op w).2.
Proof.
  induction op as [sql|members IH|idx par|sql cb q|h cb q]
    using SqlOperation_nested_ind; intros w.
  - simpl. unfold Unlock, Lock. extends_tac.
  - destruct members as [|op members]; [apply extends_refl|].
    change (Execute conn (SqlTransaction (op :: members)) w)
      with (transaction_loop conn (Execute conn)
              (int_of_size (length (op :: members))) 0%Z (op :: members)
              (conn_BeginTransaction (Lock w))).
    eapply extends_trans; [|apply transaction_loop_extends; exact IH].
    unfold conn_BeginTransaction, Lock. extends_tac.
  - simpl. unfold Unlock, Lock. extends_tac.
  - destruct cb as [cb|], q as [q|]; simpl; try apply extends_refl.
    unfold Unlock, Lock. extends_tac.
  - destruct h as [h|], cb as [cb|], q as [q|]; simpl; try apply extends_refl.
    unfold Unlock. apply extends_emit_r; [|reflexivity].
    apply extends_queue_add.
    eapply extends_trans; [|apply holder_loop_extends].
    unfold Lock. extends_tac.
Qed.

Lemma all_succeed_extends (ops : list SqlOperation) (w w' : World) :
  all_succeed conn ops w w' -> extends w w'.
Proof.
  induction 1 as [w|op ops w w1 w2 Hop _ IH]; [apply extends_refl|].
  eapply extends_trans; [|exact IH].
  pose proof (Execute_extends op w) as H. rewrite Hop in H. exact H.
Qed.

(** C1.  [SqlTransaction::Execute] is all-or-nothing.  With no member it
    returns [true] and leaves the world as it was, so no guard is taken.
    Otherwise its own effects start with one [Lock] and one
    [BeginTransaction]; the members run in the order of the sequence; at
    the first member whose [Execute] returns [false] the only further
    effects are one [RollbackTransaction] and the release of the guard,
    [false] is returned and the members after it have no part in the
    outcome; when every member returns [true] the only further effects are
    one [CommitTransaction] and the release of the guard, and the answer
    of the commit is returned.  One of the two cases always applies.  The
    number of members is read into an [int], hence the bound. *)
Theorem SqlTransaction_Execute_all_or_nothing
  (members : list SqlOperation) (w : World) :
  (Z.of_nat (length members) <= INT_MAX)%Z ->
  let started := conn_BeginTransaction (Lock w) in
  (members = [] -> Execute conn (SqlTransaction members) w = (true, w))
  /\ (members <> [] ->
      trace started = trace w ++ [EvLock; EvBeginTransaction]
      /\ (forall done failing rest w1 w2,
            members = done ++ failing :: rest ->
            all_succeed conn done started w1 ->
            Execute conn failing w1 = (false, w2) ->
            Execute conn (SqlTransaction members) w
            = (false, Unlock (conn_RollbackTransaction w2))
            /\ trace (Unlock (conn_RollbackTransaction w2))
               = trace w2 ++ [EvRollbackTransaction; EvUnlock]
            /\ exists evs, trace w2 = trace started ++ evs)
      /\ (forall w1,
            all_succeed conn members started w1 ->
            Execute conn (SqlTransaction members) w
            = (drv_CommitTransaction conn (trace w1),
               Unlock (emit EvCommitTransaction w1))
            /\ trace (Unlock (emit EvCommitTransaction w1))
               = trace w1 ++ [EvCommitTransaction; EvUnlock]
            /\ exists evs, trace w1 = trace started ++ evs)
      /\ ((exists w1, all_succeed conn members started w1)
          \/ (exists done failing rest w1 w2,
                members = done ++ failing :: rest
                /\ all_succeed conn done started w1
                /\ Execute conn failing w1 = (false, w2)))).
Proof.
  intros Hlen started. split.
  - intros ->. reflexivity.
  - intros Hne.
    assert (Hrun : Execute conn (SqlTransaction members) w
                   = transaction_loop conn (Execute conn)
                       (Z.of_nat (length members)) 0%Z members started).
    { destruct members as [|op members]; [congruence|].
      rewrite <- (int_of_size_small (length (op :: members)) Hlen).
      reflexivity. }
    split; [|split; [|split]].
    + unfold started, conn_BeginTransaction, Lock.
      rewrite !trace_emit, <- app_assoc. reflexivity.
    + intros done failing rest w1 w2 -> Hall Hfail.
      split; [|split].
      * rewrite Hrun.
        apply transaction_loop_rollback with (w1 := w1); [assumption..|].
        rewrite length_app. simpl. lia.
      * unfold Unlock, conn_RollbackTransaction.
        rewrite !trace_emit, <- app_assoc. reflexivity.
      * pose proof (all_succeed_extends _ _ _ Hall) as [(e1 & He1 & _) _].
        pose proof (Execute_extends failing w1) as [(e2 & He2 & _) _].
        rewrite Hfail in He2. simpl in He2.
        exists (e1 ++ e2). rewrite He2, He1, app_assoc. reflexivity.
    + intros w1 Hall. split; [|split].
      * rewrite Hrun. apply transaction_loop_commit; [assumption|lia].
      * unfold Unlock. rewrite !trace_emit, <- app_assoc. reflexivity.
      * pose proof (all_succeed_extends _ _ _ Hall) as [(e1 & He1 & _) _].
        exists e1. exact He1.
    + apply all_succeed_or_first_failure.
Qed.

End Transaction.

(** A transaction of three statements on the instrumented connection; the
    second one fails. *)
Lemma SqlTransaction_Execute_all_or_nothing_witness :
  let txn := [SqlPlainRequest "UPDATE a"; SqlPlainRequest ""; SqlPlainRequest "UPDATE b"] in
  (Z.of_nat (length txn) <= INT_MAX)%Z
  /\ Execute fake_conn (SqlTransaction txn) world0
     = (false,
        set_trace [EvLock; EvBeginTransaction;
                   EvLock; EvExecute "UPDATE a"; EvUnlock;
                   EvLock; EvExecute ""; EvUnlock;
                   EvRollbackTransaction; EvUnlock] world0).
Proof.
  intros txn.
  assert (Hlen : (Z.of_nat (length txn) <= INT_MAX)%Z) by (vm_compute; discriminate).
  split; [exact Hlen|].
  destruct (SqlTransaction_Execute_all_or_nothing fake_conn txn world0 Hlen)
    as [_ Hrun].
  destruct (Hrun ltac:(discriminate)) as (_ & Hfail & _).
  destruct (Hfail [SqlPlainRequest "UPDATE a"] (SqlPlainRequest "")
                  [SqlPlainRequest "UPDATE b"]
                  (Execute fake_conn (SqlPlainRequest "UPDATE a")
                     (conn_BeginTransaction (Lock world0))).2
                  (set_trace [EvLock; EvBeginTransaction;
                              EvLock; EvExecute "UPDATE a"; EvUnlock;
                              EvLock; EvExecute ""; EvUnlock] world0)
                  eq_refl) as (Heq & _).
  - econstructor; [reflexivity|constructor].
  - reflexivity.
  - rewrite Heq. reflexivity.
Defined.

(** ** SqlQueryHolder *)

Lemma upd_same {A : Type} (f : nat -> A) (p : nat) (a : A) : upd f p a p = a.
Proof. unfold upd. rewrite Nat.eqb_refl. reflexivity. Qed.

Lemma upd_other {A : Type} (f : nat -> A) (p q : nat) (a : A) :
  q <> p -> upd f p a q = f q.
Proof.
  intros Hne. unfold upd. destruct (Nat.eqb_spec q p); [contradiction|reflexivity].
Qed.

(** C7.  [SqlQueryHolder::SetQuery] returns [false] and leaves the holder
    as it was when the index is out of range, and when the slot already
    holds a text, which then is still the text stored first; either
    failure is logged with its own message.  On a slot in range that holds
    no text it stores the text and returns [true], leaving the other slots
    alone; and it returns [true] in no other case. *)
Theorem SetQuery_rejects_or_stores
  (index : nat) (sql : string) (this : SqlQueryHolder) (w : World) :
  let '(ok, this', w') := SetQuery index sql this w in
  (length (m_queries this) <= index ->
   ok = false /\ this' = this
   /\ w' = emit (EvLog (LogIndexOutOfRange index (length (m_queries this)) sql)) w)
  /\ (forall old r, m_queries this !! index = Some (Some old, r) ->
        ok = false /\ this' = this
        /\ m_queries this' !! index = Some (Some old, r)
        /\ w' = emit (EvLog (LogSlotOccupied index old sql)) w)
  /\ (forall r, m_queries this !! index = Some (None, r) ->
        ok = true
        /\ m_queries this' !! index = Some (Some sql, None)
        /\ length (m_queries this') = length (m_queries this)
        /\ (forall j, j <> index -> m_queries this' !! j = m_queries this !! j)
        /\ w' = w)
  /\ (ok = true -> exists r, m_queries this !! index = Some (None, r)).
Proof.
  unfold SetQuery.
  destruct (decide (length (m_queries this) <= index)) as [Hout|Hin].
  - pose proof (lookup_ge_None_2 (m_queries this) index Hout) as Hnone.
    split; [intros _; repeat split|].
    split; [intros old r Hslot; rewrite Hnone in Hslot; discriminate|].
    split; [intros r Hslot; rewrite Hnone in Hslot; discriminate|discriminate].
  - assert (Hlt : index < length (m_queries this)) by lia.
    destruct (lookup_lt_is_Some_2 _ _ Hlt) as [[text r0] Hslot].
    rewrite Hslot. destruct text as [old|].
    + split; [lia|]. split; [|split].
      * intros old' r' [= <- <-]. split; [reflexivity|].
        split; [reflexivity|]. split; [exact Hslot|reflexivity].
      * intros r' [=].
      * discriminate.
    + split; [lia|]. split; [|split].
      * intros old' r' [=].
      * intros r' _. simpl. split; [reflexivity|].
        split; [apply list_lookup_insert_eq, Hlt|].
        split; [apply length_insert|].
        split; [|reflexivity].
        intros j Hj. apply list_lookup_insert_ne. congruence.
      * intros _. exists r0. reflexivity.
Qed.

(** Setting the same slot twice, and an index out of range. *)
Lemma SetQuery_rejects_or_stores_witness :
  let h0 := {| m_queries := [(None, None); (None, None)] |} in
  let h1 := {| m_queries := [(None, None); (Some "SELECT a", None)] |} in
  (SetQuery 1 "SELECT a" h0 world0).1.1 = true
  /\ (SetQuery 1 "SELECT b" h1 world0).1 = (false, h1)
  /\ (SetQuery 2 "SELECT c" h1 world0).1 = (false, h1).
Proof.
  intros h0 h1.
  pose proof (SetQuery_rejects_or_stores 1 "SELECT a" h0 world0) as H0.
  pose proof (SetQuery_rejects_or_stores 1 "SELECT b" h1 world0) as H1.
  pose proof (SetQuery_rejects_or_stores 2 "SELECT c" h1 world0) as H2.
  destruct (SetQuery 1 "SELECT a" h0 world0) as [[ok0 h0'] w0'] eqn:E0.
  destruct (SetQuery 1 "SELECT b" h1 world0) as [[ok1 h1'] w1'] eqn:E1.
  destruct (SetQuery 2 "SELECT c" h1 world0) as [[ok2 h2'] w2'] eqn:E2.
  destruct H0 as (_ & _ & H0 & _).
  destruct (H0 None eq_refl) as (-> & _).
  destruct H1 as (_ & H1 & _).
  destruct (H1 "SELECT a" None eq_refl) as (-> & -> & _).
  destruct H2 as (H2 & _).
  destruct (H2 ltac:(simpl; lia)) as (-> & -> & _).
  repeat split.
Defined.

(** C8.  [SqlQueryHolder::TakeResult] on a slot in range hands the result
    of the slot to the caller and leaves the slot without result and
    without text; the text, when there was one, is released once, and the
    other slots are as before.  A second [TakeResult] on the same slot
    returns the empty result and releases nothing.  On an index out of
    range the empty result is returned and nothing changes. *)
Theorem TakeResult_transfers_ownership
  (index : nat) (this : SqlQueryHolder) (w : World) :
  let '(result, this', w') := TakeResult index this w in
  (forall text r, m_queries this !! index = Some (text, r) ->
     result = r
     /\ m_queries this' !! index = Some (None, None)
     /\ length (m_queries this') = length (m_queries this)
     /\ (forall j, j <> index -> m_queries this' !! j = m_queries this !! j)
     /\ trace w' = trace w ++ match text with
                             | Some t => [EvDeleteText t]
                             | None => []
                             end
     /\ TakeResult index this' w' = (None, this', w'))
  /\ (length (m_queries this) <= index ->
      result = None /\ this' = this /\ w' = w).
Proof.
  unfold TakeResult.
  destruct (decide (index < length (m_queries this))) as [Hlt|Hge].
  - destruct (lookup_lt_is_Some_2 _ _ Hlt) as [[text r0] Hslot].
    rewrite Hslot. split; [|lia].
    intros text' r' [= <- <-]. simpl.
    assert (Hnew : <[index := (None, None)]> (m_queries this) !! index
                   = Some (None, None : option QueryResult))
      by (apply list_lookup_insert_eq, Hlt).
    split; [reflexivity|]. split; [exact Hnew|].
    split; [apply length_insert|].
    split; [intros j Hj; apply list_lookup_insert_ne; congruence|].
    split; [destruct text; [reflexivity|symmetry; apply app_nil_r]|].
    rewrite length_insert.
    destruct (decide (index < length (m_queries this))); [|contradiction].
    rewrite Hnew. rewrite list_insert_insert_eq. reflexivity.
  - split; [|intros _; repeat split].
    intros text r Hslot. apply lookup_lt_Some in Hslot. contradiction.
Qed.

(** Taking the same slot twice, and an index out of range. *)
Lemma TakeResult_transfers_ownership_witness :
  let h := {| m_queries := [(Some "SELECT a", Some [["1"]]); (None, None)] |} in
  let h' := {| m_queries := [(None, None); (None, None)] |} in
  let w' := set_trace [EvDeleteText "SELECT a"] world0 in
  TakeResult 0 h world0 = (Some [["1"]], h', w')
  /\ TakeResult 0 h' w' = (None, h', w')
  /\ TakeResult 2 h world0 = (None, h, world0).
Proof.
  intros h h' w'.
  pose proof (TakeResult_transfers_ownership 0 h world0) as H0.
  pose proof (TakeResult_transfers_ownership 2 h world0) as H2.
  change (TakeResult 0 h world0) with (Some [["1"]], h', w') in H0 |- *.
  destruct H0 as [H0 _].
  destruct (H0 (Some "SELECT a") (Some [["1"]]) eq_refl) as (_ & _ & _ & _ & _ & Hagain).
  destruct (TakeResult 2 h world0) as [[r2 h2] w2].
  destruct H2 as [_ H2]. destruct (H2 ltac:(simpl; lia)) as (-> & -> & ->).
  split; [reflexivity|]. split; [exact Hagain|reflexivity].
Defined.

(** ** SqlQueryHolder::SetPQuery *)

Lemma length_substring_0 (n : nat) (s : string) :
  String.length (String.substring 0 n s) = Nat.min n (String.length s).
Proof.
  revert s. induction n as [|n IH]; intros [|c s]; simpl; try reflexivity.
  rewrite IH. reflexivity.
Qed.

(** [SetPQuery] rejects the write when the format is null and when
    [vsnprintf] reports a failure. *)
Lemma SetPQuery_rejects_failure
  (MAX_QUERY_LEN index : nat) (format : option string)
  (this : SqlQueryHolder) (w : World) :
  (SetPQuery MAX_QUERY_LEN index None (Some "text") this w).1 = (false, this)
  /\ (SetPQuery MAX_QUERY_LEN index format None this w).1 = (false, this).
Proof. split; [reflexivity|]. destruct format; reflexivity. Qed.

(** C2.  What [SqlQueryHolder::SetPQuery] does with a text that does not
    fit the buffer: [vsnprintf] cuts it to [MAX_QUERY_LEN - 1] characters
    and returns the length of the whole text, which is not [-1]; the test
    [res == -1] lets the call through to [SetQuery], and on a free slot in
    range the call returns [true] with the cut text stored. *)
Theorem SetPQuery_stores_truncated_query
  (MAX_QUERY_LEN index : nat) (fmt s : string) (r : option QueryResult)
  (this : SqlQueryHolder) (w : World) :
  0 < MAX_QUERY_LEN ->
  MAX_QUERY_LEN <= String.length s ->
  (Z.of_nat (String.length s) <= INT_MAX)%Z ->
  m_queries this !! index = Some (None, r) ->
  let stored := String.substring 0 (MAX_QUERY_LEN - 1) s in
  SetPQuery MAX_QUERY_LEN index (Some fmt) (Some s) this w
  = (true, {| m_queries := <[index := (Some stored, None)]> (m_queries this) |}, w)
  /\ String.length stored = MAX_QUERY_LEN - 1
  /\ stored <> s.
Proof.
  intros Hpos Hlong Hint Hslot stored.
  assert (Hlen : String.length stored = MAX_QUERY_LEN - 1).
  { unfold stored. rewrite length_substring_0. lia. }
  split; [|split; [exact Hlen|]].
  - unfold SetPQuery, vsnprintf.
    destruct (Z.leb_spec (Z.of_nat (String.length s)) INT_MAX); [|lia].
    destruct (Z.eqb_spec (Z.of_nat (String.length s)) (-1)); [lia|].
    unfold SetQuery.
    pose proof (lookup_lt_Some _ _ _ Hslot) as Hlt.
    destruct (decide (length (m_queries this) <= index)); [lia|].
    rewrite Hslot. reflexivity.
  - intros Heq. rewrite Heq in Hlen. lia.
Qed.

(** A buffer of 16 characters and a query of 24. *)
Lemma SetPQuery_stores_truncated_query_witness :
  let h := {| m_queries := [(None, None)] |} in
  SetPQuery 16 0 (Some "%s") (Some "SELECT * FROM characters") h world0
  = (true, {| m_queries := [(Some "SELECT * FROM c", None)] |}, world0).
Proof.
  intros h.
  destruct (SetPQuery_stores_truncated_query 16 0 "%s" "SELECT * FROM characters"
              None h world0) as [Heq _].
  - lia.
  - simpl. lia.
  - vm_compute. discriminate.
  - reflexivity.
  - exact Heq.
Defined.

(** ** SqlQueryHolderEx::Execute *)

Section HolderBatch.

Variable conn : SqlConnection.

Lemma run_slots_trace (slots : list SqlResultPair) :
  forall t, (run_slots conn slots t).2 = t ++ map EvQuery (slot_texts slots).
Proof.
  induction slots as [|[[sql|] r] slots IH]; intros t; simpl.
  - symmetry. apply app_nil_r.
  - specialize (IH (t ++ [EvQuery sql])).
    destruct (run_slots conn slots (t ++ [EvQuery sql])) as [done t'].
    simpl in *. rewrite IH, <- app_assoc. reflexivity.
  - specialize (IH t). destruct (run_slots conn slots t) as [done t'].
    exact IH.
Qed.

Lemma run_slots_length (slots : list SqlResultPair) :
  forall t, length (run_slots conn slots t).1 = length slots.
Proof.
  induction slots as [|[[sql|] r] slots IH]; intros t; simpl; [reflexivity|..].
  - specialize (IH (t ++ [EvQuery sql])).
    destruct (run_slots conn slots (t ++ [EvQuery sql])) as [done t'].
    simpl in *. congruence.
  - specialize (IH t). destruct (run_slots conn slots t) as [done t'].
    simpl in *. congruence.
Qed.

(** Each slot keeps its text; a slot with a text holds the answer the
    connection gave after the queries of the slots before it. *)
Lemma run_slots_lookup (slots : list SqlResultPair) :
  forall t i text r,
    slots !! i = Some (text, r) ->
    (run_slots conn slots t).1 !! i
    = Some (text,
            match text with
            | Some sql =>
                drv_Query conn (t ++ map EvQuery (slot_texts (take i slots))) sql
            | None => r
            end).
Proof.
  induction slots as [|[[sql|] r0] slots IH]; intros t i text r Hslot.
  - discriminate.
  - simpl. specialize (IH (t ++ [EvQuery sql])).
    destruct (run_slots conn slots (t ++ [EvQuery sql])) as [done t'].
    destruct i as [|i]; simpl in *.
    + injection Hslot as <- <-. rewrite app_nil_r. reflexivity.
    + rewrite (IH i text r Hslot), <- app_assoc. reflexivity.
  - simpl. specialize (IH t).
    destruct (run_slots conn slots t) as [done t'].
    destruct i as [|i]; simpl in *.
    + injection Hslot as <- <-. reflexivity.
    + rewrite (IH i text r Hslot). reflexivity.
Qed.

(** The loop over the indices does to the holder behind the pointer what
    [run_slots] does to the sequence of its slots. *)
Lemma holder_loop_run (p : HolderPtr) (suf : list SqlResultPair) :
  forall (pre : list SqlResultPair) (w : World),
    m_queries (holders w p) = pre ++ suf ->
    let w' := holder_loop conn (length suf) p (length pre) w in
    m_queries (holders w' p) = pre ++ (run_slots conn suf (trace w)).1
    /\ trace w' = (run_slots conn suf (trace w)).2
    /\ (forall p', p' <> p -> holders w' p' = holders w p')
    /\ queues w' = queues w.
Proof.
  induction suf as [|[text r] suf IH]; intros pre w Hq; simpl.
  - rewrite Hq. repeat split.
  - assert (Hlt : length pre < length (m_queries (holders w p))).
    { rewrite Hq, length_app. simpl. lia. }
    destruct (decide (length pre < length (m_queries (holders w p))));
      [|contradiction].
    assert (Hslot : m_queries (holders w p) !! length pre = Some (text, r)).
    { rewrite Hq. apply list_lookup_middle. reflexivity. }
    unfold holder_slot. rewrite Hslot.
    destruct text as [sql|].
    + unfold conn_Query.
      set (res := drv_Query conn (trace w) sql).
      set (w1 := set_holder p
                   (SetResult (length pre) res (holders (emit (EvQuery sql) w) p))
                   (emit (EvQuery sql) w)).
      assert (Hq1 : m_queries (holders w1 p) = (pre ++ [(Some sql, res)]) ++ suf).
      { unfold w1. simpl. rewrite upd_same. unfold SetResult.
        destruct (decide (length pre < length (m_queries (holders w p))));
          [|contradiction].
        rewrite Hslot. simpl. rewrite Hq.
        rewrite insert_app_r_alt by lia.
        rewrite Nat.sub_diag, <- app_assoc. reflexivity. }
      specialize (IH (pre ++ [(Some sql, res)]) w1 Hq1).
      rewrite length_app in IH. simpl in IH.
      rewrite Nat.add_1_r in IH.
      change (trace w1) with (trace w ++ [EvQuery sql]) in IH.
      destruct (run_slots conn suf (trace w ++ [EvQuery sql])) as [done t'].
      simpl in *. destruct IH as (Hm & Ht & Hh & Hqs).
      rewrite <- app_assoc in Hm.
      split; [exact Hm|]. split; [exact Ht|]. split; [|exact Hqs].
      intros p' Hp'. rewrite (Hh p' Hp'). unfold w1. simpl.
      apply upd_other, Hp'.
    + assert (Hq1 : m_queries (holders w p) = (pre ++ [(None, r)]) ++ suf).
      { rewrite Hq, <- app_assoc. reflexivity. }
      specialize (IH (pre ++ [(None, r)]) w Hq1).
      rewrite length_app in IH. simpl in IH.
      rewrite Nat.add_1_r in IH.
      destruct (run_slots conn suf (trace w)) as [done t'].
      simpl in *. destruct IH as (Hm & Ht & Hh & Hqs).
      rewrite <- app_assoc in Hm. repeat split; assumption.
Qed.

(** C6.  [SqlQueryHolderEx::Execute] returns [false] and does nothing when
    the holder, the callback or the queue is missing.  Otherwise it returns
    [true]; its effects on the connection are one [Lock], one [Query] for
    each slot that has a text, in index order and whatever the earlier
    queries answered, and the release of the guard; every slot keeps its
    text, a slot with a text holds the answer to its query, present or
    absent, a slot without text keeps its result; and the callback is at
    the back of the result queue. *)
Theorem SqlQueryHolderEx_Execute_runs_batch
  (holder : HolderPtr) (callback : IQueryCallback) (queue : QueuePtr)
  (w : World) :
  (forall h cb q,
     h = None \/ cb = None \/ q = None ->
     Execute conn (SqlQueryHolderEx h cb q) w = (false, w))
  /\ (let slots := m_queries (holders w holder) in
      let locked := trace w ++ [EvLock] in
      exists w',
        Execute conn (SqlQueryHolderEx (Some holder) (Some callback) (Some queue)) w
        = (true, w')
        /\ trace w' = locked ++ map EvQuery (slot_texts slots) ++ [EvUnlock]
        /\ m_queries (holders w' holder) = (run_slots conn slots locked).1
        /\ length (m_queries (holders w' holder)) = length slots
        /\ (forall i text r,
              slots !! i = Some (text, r) ->
              m_queries (holders w' holder) !! i
              = Some (text,
                      match text with
                      | Some sql =>
                          drv_Query conn
                            (locked ++ map EvQuery (slot_texts (take i slots))) sql
                      | None => r
                      end))
        /\ (forall p, p <> holder -> holders w' p = holders w p)
        /\ inbound (queues w' queue) = inbound (queues w queue) ++ [callback]
        /\ _threadUnsafeWaitingQueries (queues w' queue)
           = _threadUnsafeWaitingQueries (queues w queue)
        /\ (forall p, p <> queue -> queues w' p = queues w p)).
Proof.
  split.
  - intros h cb q [-> | [-> | ->]]; [reflexivity | ..].
    + destruct h; reflexivity.
    + destruct h; [destruct cb|]; reflexivity.
  - intros slots locked.
    pose proof (holder_loop_run holder slots [] (Lock w) eq_refl) as Hloop.
    simpl in Hloop. fold locked in Hloop.
    change (m_queries (holders w holder)) with slots in Hloop.
    destruct Hloop as (Hm & Ht & Hh & Hqs).
    eexists. split; [reflexivity|].
    change (m_queries (holders (Lock w) holder)) with slots.
    set (w1 := holder_loop conn (length slots) holder 0 (Lock w)) in *.
    split; [|split; [|split; [|split; [|split; [|split; [|split]]]]]].
    + unfold Unlock. rewrite trace_emit. simpl. rewrite Ht, run_slots_trace.
      rewrite <- app_assoc. reflexivity.
    + exact Hm.
    + simpl. rewrite Hm. apply run_slots_length.
    + intros i text r Hslot. simpl. rewrite Hm.
      apply run_slots_lookup, Hslot.
    + intros p Hp. simpl. apply Hh, Hp.
    + simpl. rewrite upd_same. simpl. rewrite Hqs. reflexivity.
    + simpl. rewrite upd_same. simpl. rewrite Hqs. reflexivity.
    + intros p Hp. simpl. rewrite upd_other by exact Hp. rewrite Hqs. reflexivity.
Qed.

End HolderBatch.

(** A holder of three slots on the instrumented connection: the query of
    the first slot fails, the second slot has no text, the third query is
    answered. *)
Lemma SqlQueryHolderEx_Execute_runs_batch_witness :
  let h := {| m_queries := [(Some "", Some [["old"]]); (None, None); (Some "SELECT 1", None)] |} in
  let w := set_holder 7 h world0 in
  let w' := (Execute fake_conn
               (SqlQueryHolderEx (Some 7) (Some (callback 1 false)) (Some 3)) w).2 in
  Execute fake_conn (SqlQueryHolderEx (Some 7) None (Some 3)) w = (false, w)
  /\ trace w' = [EvLock; EvQuery ""; EvQuery "SELECT 1"; EvUnlock]
  /\ m_queries (holders w' 7)
     = [(Some "", None); (None, None); (Some "SELECT 1", Some [["SELECT 1"]])]
  /\ inbound (queues w' 3) = [callback 1 false].
Proof.
  intros h w w'.
  destruct (SqlQueryHolderEx_Execute_runs_batch fake_conn 7 (callback 1 false) 3 w)
    as [Hnull (w1 & Hrun & Htrace & Hslots & _ & _ & _ & Hqueue & _)].
  split; [apply Hnull; right; left; reflexivity|].
  unfold w'. rewrite Hrun. simpl.
  split; [exact Htrace|]. split; [exact Hslots|exact Hqueue].
Defined.

(** ** SqlResultQueue *)

Section ResultQueueProofs.

Variable getMSTime : nat -> Z.
Variable getMSTimeDiff : Z -> Z -> Z.

Lemma Update_collect_fields (pending : list IQueryCallback) :
  forall unsafe num tasks,
    inbound (Update_collect pending unsafe num tasks) = []
    /\ _threadUnsafeWaitingQueries (Update_collect pending unsafe num tasks)
       = unsafe ++ unsafe_of pending
    /\ m_callbackThreads (Update_collect pending unsafe num tasks)
       = tasks ++ safe_of pending.
Proof.
  induction pending as [|cb pending IH]; intros unsafe num tasks; simpl.
  - rewrite !app_nil_r. repeat split.
  - unfold IsThreadSafe. destruct (cb_threadSafe cb); simpl.
    + destruct (IH unsafe num (tasks ++ [cb])) as (Hi & Hu & Ht).
      rewrite Hi, Hu, Ht, <- app_assoc. repeat split.
    + destruct (IH (LockedQueue_add cb unsafe) (uint32 (num + 1)) tasks)
        as (Hi & Hu & Ht).
      unfold LockedQueue_add in *.
      rewrite Hi, Hu, Ht, <- app_assoc. repeat split.
Qed.

(** The drain of the backlog delivers a front part of it, in order, and
    leaves the rest; the front part is never empty when the backlog is
    not; it stops before the end only on a reading above the budget, and
    went on after every earlier reading because that was not above it. *)
Lemma Update_drain_prefix (timeout begin : Z) (fifo : list IQueryCallback) :
  forall (num : Z) (w : World),
    let out := Update_drain getMSTime getMSTimeDiff timeout begin fifo num w in
    exists done rest,
      fifo = done ++ rest
      /\ out.1.1 = rest
      /\ trace out.2 = trace w ++ flat_map delivered done
      /\ pool_trace out.2 = pool_trace w
      /\ (fifo <> [] -> done <> [])
      /\ (timeout = 0%Z -> rest = [])
      /\ (rest <> [] ->
          exists k, length done = S k
                    /\ (elapsed getMSTime getMSTimeDiff begin (timer_reads w + k) > timeout)%Z)
      /\ (forall j, S j < length done -> timeout <> 0%Z ->
          (elapsed getMSTime getMSTimeDiff begin (timer_reads w + j) <= timeout)%Z).
Proof.
  unfold elapsed.
  induction fifo as [|s fifo IH]; intros num w; simpl.
  - exists [], []. simpl. rewrite app_nil_r.
    repeat split; try congruence; try (intros; lia).
  - set (w1 := delete_callback s (Callback_Execute s w)).
    assert (Ht1 : trace w1 = trace w ++ delivered s).
    { unfold w1, delete_callback, Callback_Execute.
      rewrite !trace_emit, <- app_assoc. reflexivity. }
    destruct (Z.eqb_spec timeout 0) as [Hzero|Hpos].
    + destruct (IH (uint32 (num - 1)) w1)
        as (done & rest & Hsplit & Hrest & Htrace & Hpool & _ & Hall & _ & _).
      exists (s :: done), rest. simpl.
      split; [congruence|]. split; [exact Hrest|].
      split; [rewrite Htrace, Ht1, <- !app_assoc; reflexivity|].
      split; [exact Hpool|]. split; [discriminate|].
      split; [exact Hall|]. split; [intros Hne; elim Hne; auto|].
      intros; contradiction.
    + unfold WorldTimer_getMSTimeDiffToNow, WorldTimer_getMSTime.
      change (timer_reads w1) with (timer_reads w).
      set (w2 := set_timer_reads (S (timer_reads w)) w1).
      destruct (Z.gtb_spec (getMSTimeDiff begin (getMSTime (timer_reads w))) timeout)
        as [Hgt|Hle].
      * exists [s], fifo. simpl.
        split; [reflexivity|]. split; [reflexivity|].
        split; [exact Ht1|]. split; [reflexivity|]. split; [discriminate|].
        split; [contradiction|].
        split; [intros _; exists 0; rewrite Nat.add_0_r; split; [reflexivity|lia]|].
        intros j Hj. lia.
      * destruct (IH (uint32 (num - 1)) w2)
          as (done & rest & Hsplit & Hrest & Htrace & Hpool & Hne & _ & Hstop & Hgo).
        exists (s :: done), rest. simpl.
        split; [congruence|]. split; [exact Hrest|].
        split; [rewrite Htrace; change (trace w2) with (trace w1);
                rewrite Ht1, <- !app_assoc; reflexivity|].
        split; [exact Hpool|]. split; [discriminate|].
        split; [contradiction|]. split.
        -- intros Hr. destruct (Hstop Hr) as (k & Hk & Hgt).
           exists (S k). split; [congruence|].
           change (timer_reads w2) with (S (timer_reads w)) in Hgt.
           replace (timer_reads w + S k) with (S (timer_reads w) + k) by lia.
           exact Hgt.
        -- intros [|j] Hj _.
           ++ rewrite Nat.add_0_r. lia.
           ++ replace (timer_reads w + S j) with (S (timer_reads w) + j) by lia.
              apply (Hgo j); [lia|exact Hpos].
Qed.

Lemma callback_events_app (t1 t2 : list Event) :
  callback_events (t1 ++ t2) = callback_events t1 ++ callback_events t2.
Proof. apply List.filter_app. Qed.

Lemma callback_events_delivered (l : list IQueryCallback) :
  callback_events (flat_map delivered l) = flat_map delivered l.
Proof.
  induction l as [|cb l IH]; [reflexivity|].
  simpl. do 2 f_equal. exact IH.
Qed.

Lemma callback_events_warning (num : Z) : callback_events (warning num) = [].
Proof. unfold warning. destruct (num >? 1000)%Z; reflexivity. Qed.

(** [Update] as a whole: the backlog it drains is the old one followed by
    the thread-unsafe callbacks it has just collected. *)
Lemma Update_prefix (timeout : Z) (q : SqlResultQueue) (w : World) :
  let backlog := _threadUnsafeWaitingQueries q ++ unsafe_of (inbound q) in
  let begin := getMSTime (timer_reads w) in
  let q' := (Update getMSTime getMSTimeDiff timeout q w).1 in
  let w' := (Update getMSTime getMSTimeDiff timeout q w).2 in
  exists done rest,
    backlog = done ++ rest
    /\ _threadUnsafeWaitingQueries q' = rest
    /\ inbound q' = []
    /\ trace w' = trace w ++ flat_map delivered done ++ warning (numUnsafeQueries q')
    /\ pool_trace w'
       = pool_trace w ++ flat_map delivered (m_callbackThreads q ++ safe_of (inbound q))
    /\ (backlog <> [] -> done <> [])
    /\ (timeout = 0%Z -> rest = [])
    /\ (rest <> [] ->
        exists k, length done = S k
                  /\ (elapsed getMSTime getMSTimeDiff begin (S (timer_reads w) + k) > timeout)%Z)
    /\ (forall j, S j < length done -> timeout <> 0%Z ->
        (elapsed getMSTime getMSTimeDiff begin (S (timer_reads w) + j) <= timeout)%Z).
Proof.
  intros backlog begin q' w'.
  unfold q', w', Update, WorldTimer_getMSTime, processWorkload. simpl.
  destruct (Update_collect_fields (inbound q) (_threadUnsafeWaitingQueries q)
              (numUnsafeQueries q) (m_callbackThreads q)) as (Hi & Hu & Ht).
  rewrite Hi, Hu, Ht. fold backlog. fold begin.
  set (num0 := numUnsafeQueries (Update_collect _ _ _ _)).
  set (w0 := set_pool_trace _ _).
  destruct (Update_drain_prefix timeout begin backlog num0 w0)
    as (done & rest & Hsplit & Hrest & Htrace & Hpool & Hne & Hall & Hstop & Hgo).
  destruct (Update_drain getMSTime getMSTimeDiff timeout begin backlog num0 w0)
    as [[fifo' num'] wd]. simpl in *.
  exists done, rest.
  split; [exact Hsplit|]. split; [exact Hrest|]. split; [reflexivity|].
  split; [|split; [|split; [exact Hne|split; [exact Hall|split; [exact Hstop|exact Hgo]]]]].
  - unfold warning. destruct (num' >? 1000)%Z.
    + rewrite trace_emit, Htrace, <- app_assoc. reflexivity.
    + rewrite Htrace, app_nil_r. reflexivity.
  - destruct (num' >? 1000)%Z; simpl; rewrite Hpool; reflexivity.
Qed.

(** C3.  [SqlResultQueue::Update] delivers and releases a front part of
    the thread-unsafe backlog in first-in first-out order and leaves the
    rest in the queue, in order.  With a budget of zero the rest is empty:
    the whole backlog goes in one call.  With a positive budget the call
    stops before the end only after a reading of the elapsed time above
    the budget.  What one call leaves is what the next starts with: after
    a further call with a budget of zero, every callback of the backlog,
    and every thread-unsafe one that arrived in between, has been
    delivered and released once, in order. *)
Theorem Update_drains_unsafe_backlog
  (timeout : Z) (q : SqlResultQueue) (w : World) :
  let backlog := _threadUnsafeWaitingQueries q ++ unsafe_of (inbound q) in
  let begin := getMSTime (timer_reads w) in
  let q' := (Update getMSTime getMSTimeDiff timeout q w).1 in
  let w' := (Update getMSTime getMSTimeDiff timeout q w).2 in
  (exists done rest,
     backlog = done ++ rest
     /\ _threadUnsafeWaitingQueries q' = rest
     /\ trace w' = trace w ++ flat_map delivered done ++ warning (numUnsafeQueries q')
     /\ (rest <> [] ->
         timeout <> 0%Z
         /\ exists k, length done = S k
                      /\ (elapsed getMSTime getMSTimeDiff begin (S (timer_reads w) + k) > timeout)%Z)
     /\ (forall j, S j < length done -> timeout <> 0%Z ->
         (elapsed getMSTime getMSTimeDiff begin (S (timer_reads w) + j) <= timeout)%Z))
  /\ (timeout = 0%Z ->
      _threadUnsafeWaitingQueries q' = []
      /\ trace w' = trace w ++ flat_map delivered backlog
                    ++ warning (numUnsafeQueries q'))
  /\ (forall more,
        let q2 := (Update getMSTime getMSTimeDiff 0 (feed more q') w').1 in
        let w2 := (Update getMSTime getMSTimeDiff 0 (feed more q') w').2 in
        _threadUnsafeWaitingQueries q2 = []
        /\ callback_events (trace w2)
           = callback_events (trace w)
             ++ flat_map delivered (backlog ++ unsafe_of more)).
Proof.
  intros backlog begin q' w'.
  destruct (Update_prefix timeout q w)
    as (done & rest & Hsplit & Hrest & Hin & Htrace & _ & _ & Hall & Hstop & Hgo).
  fold backlog in Hsplit. fold q' in Hrest, Hin, Htrace. fold w' in Htrace.
  fold begin in Hstop, Hgo.
  split; [|split].
  - exists done, rest.
    split; [exact Hsplit|]. split; [exact Hrest|]. split; [exact Htrace|].
    split; [|exact Hgo].
    intros Hr. split; [|exact (Hstop Hr)].
    intros Hz. apply Hr, Hall, Hz.
  - intros Hz. specialize (Hall Hz).
    rewrite Hall in Hsplit, Hrest. rewrite app_nil_r in Hsplit.
    rewrite <- Hsplit in Htrace.
    split; [exact Hrest|exact Htrace].
  - intros more q2 w2.
    destruct (Update_prefix 0 (feed more q') w')
      as (done2 & rest2 & Hsplit2 & Hrest2 & _ & Htrace2 & _ & _ & Hall2 & _ & _).
    fold q2 in Hrest2, Htrace2. fold w2 in Htrace2.
    specialize (Hall2 eq_refl).
    rewrite Hall2 in Hsplit2, Hrest2. rewrite app_nil_r in Hsplit2.
    rewrite <- Hsplit2 in Htrace2.
    split; [exact Hrest2|].
    rewrite Htrace2, Htrace. simpl. rewrite Hrest, Hin. simpl.
    rewrite !callback_events_app, !callback_events_delivered,
            !callback_events_warning, !app_nil_r.
    rewrite Hsplit, <- app_assoc, !flat_map_app, <- !app_assoc. reflexivity.
Qed.

(** C10.  When the backlog is not empty as the drain of [Update] begins,
    its first callback is delivered and released in this call, whatever
    the budget and whatever the clock says: the elapsed time is looked at
    only after a delivery. *)
Theorem Update_delivers_at_least_one
  (timeout : Z) (q : SqlResultQueue) (w : World)
  (first : IQueryCallback) (others : list IQueryCallback) :
  _threadUnsafeWaitingQueries q ++ unsafe_of (inbound q) = first :: others ->
  let q' := (Update getMSTime getMSTimeDiff timeout q w).1 in
  let w' := (Update getMSTime getMSTimeDiff timeout q w).2 in
  exists done rest,
    others = done ++ rest
    /\ _threadUnsafeWaitingQueries q' = rest
    /\ trace w' = trace w ++ delivered first ++ flat_map delivered done
                  ++ warning (numUnsafeQueries q')
    /\ count_events is_delivery (trace w) < count_events is_delivery (trace w').
Proof.
  intros Hbacklog q' w'.
  destruct (Update_prefix timeout q w)
    as (done & rest & Hsplit & Hrest & _ & Htrace & _ & Hne & _).
  fold q' in Hrest, Htrace. fold w' in Htrace.
  rewrite Hbacklog in Hsplit, Hne.
  destruct done as [|cb done]; [elim Hne; [discriminate|reflexivity]|].
  simpl in Hsplit. injection Hsplit as <- ->.
  exists done, rest.
  split; [reflexivity|]. split; [exact Hrest|].
  split; [rewrite Htrace; reflexivity|].
  rewrite Htrace, count_events_app. simpl. lia.
Qed.

End ResultQueueProofs.

(** A backlog of two and an inbound channel with one thread-unsafe and one
    thread-safe callback, on a clock that advances by a second per
    reading: a budget of a second and a half lets two deliveries through
    and leaves the third for the next call. *)
Lemma Update_drains_unsafe_backlog_witness :
  let q := {| inbound := [callback 3 false; callback 4 true];
              _threadUnsafeWaitingQueries := [callback 1 false; callback 2 false];
              numUnsafeQueries := 2; m_callbackThreads := [] |} in
  let q1 := (Update fake_getMSTime fake_getMSTimeDiff 1500 q world0).1 in
  let w1 := (Update fake_getMSTime fake_getMSTimeDiff 1500 q world0).2 in
  _threadUnsafeWaitingQueries q1 = [callback 3 false]
  /\ trace w1 = delivered (callback 1 false) ++ delivered (callback 2 false)
  /\ _threadUnsafeWaitingQueries
       (Update fake_getMSTime fake_getMSTimeDiff 0 q world0).1 = []
  /\ callback_events
       (trace (Update fake_getMSTime fake_getMSTimeDiff 0 (feed [] q1) w1).2)
     = delivered (callback 1 false) ++ delivered (callback 2 false)
       ++ delivered (callback 3 false).
Proof.
  intros q q1 w1.
  destruct (Update_drains_unsafe_backlog fake_getMSTime fake_getMSTimeDiff 1500 q world0)
    as (_ & _ & Hnext).
  destruct (Update_drains_unsafe_backlog fake_getMSTime fake_getMSTimeDiff 0 q world0)
    as (_ & Hzero & _).
  destruct (Hzero eq_refl) as [Hall _].
  destruct (Hnext []) as [_ Hevents].
  split; [reflexivity|]. split; [reflexivity|]. split; [exact Hall|exact Hevents].
Defined.

(** The budget of one millisecond is used up at the first reading; one
    callback is delivered all the same. *)
Lemma Update_delivers_at_least_one_witness :
  let q := {| inbound := [];
              _threadUnsafeWaitingQueries := [callback 1 false; callback 2 false];
              numUnsafeQueries := 2; m_callbackThreads := [] |} in
  let q' := (Update fake_getMSTime fake_getMSTimeDiff 1 q world0).1 in
  let w' := (Update fake_getMSTime fake_getMSTimeDiff 1 q world0).2 in
  exists done rest,
    [callback 2 false] = done ++ rest
    /\ _threadUnsafeWaitingQueries q' = rest
    /\ trace w' = trace world0 ++ delivered (callback 1 false)
                  ++ flat_map delivered done ++ warning (numUnsafeQueries q')
    /\ count_events is_delivery (trace world0) < count_events is_delivery (trace w').
Proof.
  intros q.
  exact (Update_delivers_at_least_one fake_getMSTime fake_getMSTimeDiff 1 q world0
           (callback 1 false) [callback 2 false] eq_refl).
Defined.

(** C4.  [SqlResultQueue::CancelAll] takes every callback out of the
    inbound channel and, on the calling thread and in order, sets its
    result to the empty one, delivers it and releases it: as many
    deliveries as there were callbacks pending.  The backlog of
    thread-unsafe callbacks, its counter and the pool are left as they
    were. *)
Theorem CancelAll_delivers_every_pending (q : SqlResultQueue) (w : World) :
  let q' := (CancelAll q w).1 in
  let w' := (CancelAll q w).2 in
  trace w' = trace w ++ flat_map (fun cb => delivered (Callback_SetResult None cb))
                                 (inbound q)
  /\ count_events is_delivery (trace w')
     = count_events is_delivery (trace w) + length (inbound q)
  /\ inbound q' = []
  /\ _threadUnsafeWaitingQueries q' = _threadUnsafeWaitingQueries q
  /\ numUnsafeQueries q' = numUnsafeQueries q
  /\ m_callbackThreads q' = m_callbackThreads q
  /\ pool_trace w' = pool_trace w
  /\ timer_reads w' = timer_reads w.
Proof.
  simpl.
  assert (Hloop : forall pending w0,
            trace (CancelAll_loop pending w0)
            = trace w0 ++ flat_map (fun cb => delivered (Callback_SetResult None cb))
                                   pending
            /\ pool_trace (CancelAll_loop pending w0) = pool_trace w0
            /\ timer_reads (CancelAll_loop pending w0) = timer_reads w0).
  { induction pending as [|cb pending IH]; intros w0; simpl.
    - rewrite app_nil_r. repeat split.
    - destruct (IH (delete_callback (Callback_SetResult None cb)
                      (Callback_Execute (Callback_SetResult None cb) w0)))
        as (Ht & Hp & Hr).
      rewrite Ht, Hp, Hr. unfold delete_callback, Callback_Execute.
      rewrite !trace_emit, <- !app_assoc. repeat split. }
  assert (Hcount : forall pending,
            count_events is_delivery
              (flat_map (fun cb => delivered (Callback_SetResult None cb)) pending)
            = length pending).
  { induction pending as [|cb pending IH]; [reflexivity|].
    simpl. rewrite IH. reflexivity. }
  destruct (Hloop (inbound q) w) as (Ht & Hp & Hr).
  split; [exact Ht|].
  split; [rewrite Ht, count_events_app, Hcount; reflexivity|].
  split; [reflexivity|]. split; [reflexivity|]. split; [reflexivity|].
  split; [reflexivity|]. split; [exact Hp|exact Hr].
Qed.

(** ** SqlDelayThread *)

Section WorkerProofs.

Variable conn : SqlConnection.

Lemma conn_events_no_deletion (evs : list Event) :
  forallb is_conn_event evs = true ->
  deleted_operations evs = [] /\ count_events is_ping evs = 0.
Proof.
  induction evs as [|e evs IH]; simpl; [split; reflexivity|].
  intros [He Hevs]%andb_true_iff. destruct (IH Hevs) as [Hd Hp].
  unfold deleted_operations in *. simpl.
  destruct e; try discriminate; simpl; rewrite ?Hd, ?Hp; split; reflexivity.
Qed.

Lemma ProcessRequests_loop_processed (queue : list SqlOperation) :
  forall w, processed conn queue w (ProcessRequests_loop conn queue w).
Proof.
  induction queue as [|s queue IH]; intros w; simpl; [constructor|].
  constructor. destruct (Execute conn s w) as [ok w1]. simpl. apply IH.
Qed.

Lemma processed_app (ops1 ops2 : list SqlOperation) (w w1 w2 : World) :
  processed conn ops1 w w1 -> processed conn ops2 w1 w2 ->
  processed conn (ops1 ++ ops2) w w2.
Proof.
  induction 1 as [w|s ops w w1 _ IH]; intros H2; simpl; [exact H2|].
  constructor. apply IH, H2.
Qed.

(** Processing adds to the trace, deletes each operation once, in order,
    and never pings. *)
Lemma processed_trace (ops : list SqlOperation) (w w' : World) :
  processed conn ops w w' ->
  (exists evs, trace w' = trace w ++ evs)
  /\ deleted_operations (trace w')
     = deleted_operations (trace w) ++ map EvDeleteOperation ops
  /\ count_events is_ping (trace w') = count_events is_ping (trace w).
Proof.
  induction 1 as [w|s ops w w' _ IH].
  - split; [exists []; symmetry; apply app_nil_r|].
    split; [symmetry; apply app_nil_r|reflexivity].
  - destruct IH as ((evs & Ht) & Hd & Hp).
    destruct (Execute_extends conn s w) as [(e1 & He1 & Hc1) _].
    destruct (conn_events_no_deletion e1 Hc1) as [Hd1 Hp1].
    rewrite trace_emit, He1 in Ht, Hd, Hp.
    split; [exists (e1 ++ [EvDeleteOperation s] ++ evs);
            rewrite Ht, <- !app_assoc; reflexivity|].
    split.
    + rewrite Hd. unfold deleted_operations in *.
      rewrite !List.filter_app, Hd1, app_nil_r, <- app_assoc. reflexivity.
    + rewrite Hp, !count_events_app, Hp1. simpl. lia.
Qed.

Lemma ProcessRequests_processed (this : SqlDelayThread) (w : World) :
  processed conn (m_delayQueue (m_dbEngine this) ++ m_serialDelayQueue this)
            w (ProcessRequests conn this w).2.
Proof.
  unfold ProcessRequests. simpl.
  eapply processed_app; apply ProcessRequests_loop_processed.
Qed.

(** C5.  The destructor of [SqlDelayThread] drains the delayed queue and
    then the serial queue before it releases the connection: every
    operation that is in one of the two queues has its [Execute] called
    once and is deleted right after, in queue order; both queues are empty
    afterwards; and the release of the connection is the last effect. *)
Theorem destroy_SqlDelayThread_drains_queues (this : SqlDelayThread) (w : World) :
  let pending := m_delayQueue (m_dbEngine this) ++ m_serialDelayQueue this in
  let this' := (destroy_SqlDelayThread conn this w).1 in
  let w' := (destroy_SqlDelayThread conn this w).2 in
  exists w1,
    processed conn pending w w1
    /\ trace w' = trace w1 ++ [EvDeleteConnection]
    /\ deleted_operations (trace w')
       = deleted_operations (trace w) ++ map EvDeleteOperation pending
    /\ m_delayQueue (m_dbEngine this') = []
    /\ m_serialDelayQueue this' = [].
Proof.
  intros pending this' w'.
  exists (ProcessRequests conn this w).2.
  pose proof (ProcessRequests_processed this w) as Hproc.
  destruct (processed_trace _ _ _ Hproc) as (_ & Hd & _).
  split; [exact Hproc|].
  split; [reflexivity|].
  split; [|split; reflexivity].
  unfold w', destroy_SqlDelayThread, deleted_operations in *.
  destruct (ProcessRequests conn this w) as [this1 w1]. simpl in *.
  rewrite List.filter_app, Hd. simpl. rewrite app_nil_r. reflexivity.
Qed.

(** *** The loop of [run] *)

Lemma pingEveryLoop_range (interval : Z) :
  (0 <= uint32 interval / loopSleepms < 2 ^ 32 - 1)%Z.
Proof.
  unfold uint32, loopSleepms. change (2 ^ 32)%Z with 4294967296%Z.
  pose proof (Z.mod_pos_bound interval 4294967296 ltac:(lia)) as Hm.
  split; [apply Z.div_pos; lia|].
  apply Z.div_lt_upper_bound; lia.
Qed.

Lemma ProcessRequests_pings (this : SqlDelayThread) (w : World) :
  count_events is_ping (trace (ProcessRequests conn this w).2)
  = count_events is_ping (trace w).
Proof.
  destruct (processed_trace _ _ _ (ProcessRequests_processed this w))
    as (_ & _ & Hp).
  exact Hp.
Qed.

(** One turn: below the cadence the counter goes up by one and nothing
    else happens after the requests; at the cadence it goes back to zero
    and the probe follows the requests. *)
Lemma run_iteration_step (pingEveryLoop : Z) (a : Arrivals)
  (this : SqlDelayThread) (c : Z) (w : World) :
  (0 <= c)%Z -> (pingEveryLoop < 2 ^ 32 - 1)%Z ->
  let out := run_iteration conn pingEveryLoop a this c w in
  let after_requests := (ProcessRequests conn (enqueue a this) w).2 in
  m_running out.1.1 = m_running this
  /\ ((c < pingEveryLoop)%Z ->
      out.1.2 = (c + 1)%Z /\ out.2 = after_requests)
  /\ ((pingEveryLoop <= c)%Z ->
      out.1.2 = 0%Z
      /\ trace out.2 = trace after_requests ++ [EvPing; EvQuery "SELECT 1"]).
Proof.
  intros Hc HP out after_requests.
  unfold out, after_requests, run_iteration.
  destruct (ProcessRequests conn (enqueue a this) w) as [this1 w1] eqn:Hreq.
  assert (Hrun : m_running this1 = m_running this).
  { unfold ProcessRequests in Hreq. injection Hreq as <- _. reflexivity. }
  rewrite Z.geb_leb.
  destruct (Z.leb_spec pingEveryLoop c) as [Hge|Hlt]; simpl.
  - split; [exact Hrun|]. split; [lia|]. intros _. split; [reflexivity|].
    rewrite <- app_assoc. reflexivity.
  - split; [exact Hrun|]. split; [|lia]. intros _. split; [|reflexivity].
    unfold uint32. apply Z.mod_small. lia.
Qed.

Lemma run_loop_schedule (pingEveryLoop : Z) (schedule : list Arrivals) :
  (0 <= pingEveryLoop < 2 ^ 32 - 1)%Z ->
  forall (this : SqlDelayThread) (c : nat) (w : World),
    m_running this = true ->
    c <= Z.to_nat pingEveryLoop ->
    let period := S (Z.to_nat pingEveryLoop) in
    let out := run_loop conn pingEveryLoop schedule this (Z.of_nat c) w in
    out.1.2 = Z.of_nat ((c + length schedule) mod period)
    /\ count_events is_ping (trace out.2)
       = count_events is_ping (trace w) + (c + length schedule) / period
    /\ m_running out.1.1 = false.
Proof.
  intros HP. induction schedule as [|a schedule IH]; intros this c w Hrun Hc period out.
  - unfold out. cbn [run_loop length]. rewrite Hrun. cbn [fst snd Stop m_running].
    rewrite Nat.add_0_r.
    rewrite Nat.mod_small, Nat.div_small by (unfold period; lia).
    repeat split. lia.
  - unfold out. cbn [run_loop length]. rewrite Hrun.
    destruct (run_iteration_step pingEveryLoop a this (Z.of_nat c) w
                ltac:(lia) ltac:(lia)) as (Hrun1 & Hbelow & Hat).
    pose proof (ProcessRequests_pings (enqueue a this) w) as Hpings.
    destruct (run_iteration conn pingEveryLoop a this (Z.of_nat c) w)
      as [[this1 c1] w1].
    cbn [fst snd] in Hrun1, Hbelow, Hat. cbn beta iota.
    rewrite Hrun in Hrun1.
    destruct (decide (c < Z.to_nat pingEveryLoop)) as [Hlt|Hge].
    + destruct (Hbelow ltac:(lia)) as [-> ->].
      replace (Z.of_nat c + 1)%Z with (Z.of_nat (S c)) by lia.
      destruct (IH this1 (S c) (ProcessRequests conn (enqueue a this) w).2
                  Hrun1 ltac:(lia)) as (H1 & H2 & H3).
      replace (c + S (length schedule)) with (S c + length schedule) by lia.
      rewrite H1, H2, Hpings. repeat split. exact H3.
    + destruct (Hat ltac:(lia)) as [-> Htrace].
      destruct (IH this1 0 w1 Hrun1 ltac:(lia)) as (H1 & H2 & H3).
      change (Z.of_nat 0) with 0%Z in *.
      replace (c + S (length schedule)) with (length schedule + 1 * period)
        by (unfold period; lia).
      rewrite Nat.Div0.mod_add, Nat.div_add by (unfold period; lia).
      cbn [Nat.add] in H1, H2. rewrite H1, H2, Htrace, count_events_app, Hpings.
      change (count_events is_ping [EvPing; EvQuery "SELECT 1"]) with 1.
      split; [reflexivity|]. split; [unfold period; lia|exact H3].
Qed.

(** The schedule of the probes.  In the loop of [run] the counter is
    tested against the cadence, the ping interval divided by the poll
    interval of 10, and then incremented.  A turn that finds it below the cadence leaves it one
    higher and issues no probe; a turn that finds it at the cadence sets
    it back to zero and issues the probe after the requests.  Over a whole
    run, the probes are issued on the turns whose number is a multiple of
    the cadence plus one, and on no other. *)
Theorem run_pings_on_cadence
  (schedule : list Arrivals) (this : SqlDelayThread) (w : World) :
  m_running this = true ->
  let pingEveryLoop := (uint32 (m_pingIntervallms (m_dbEngine this)) / loopSleepms)%Z in
  let period := S (Z.to_nat pingEveryLoop) in
  (forall a this0 c w0,
     (0 <= c)%Z ->
     let out := run_iteration conn pingEveryLoop a this0 c w0 in
     let after_requests := (ProcessRequests conn (enqueue a this0) w0).2 in
     ((c < pingEveryLoop)%Z ->
      out.1.2 = (c + 1)%Z /\ out.2 = after_requests)
     /\ ((pingEveryLoop <= c)%Z ->
         out.1.2 = 0%Z
         /\ trace out.2 = trace after_requests ++ [EvPing; EvQuery "SELECT 1"]))
  /\ (let out := run conn schedule this w in
      out.1.2 = Z.of_nat (length schedule mod period)
      /\ count_events is_ping (trace out.2)
         = count_events is_ping (trace w) + length schedule / period
      /\ m_running out.1.1 = false).
Proof.
  intros Hrun pingEveryLoop period.
  pose proof (pingEveryLoop_range (m_pingIntervallms (m_dbEngine this))) as HP.
  fold pingEveryLoop in HP.
  split.
  - intros a this0 c w0 Hc out after_requests.
    destruct (run_iteration_step pingEveryLoop a this0 c w0 Hc ltac:(lia))
      as (_ & Hbelow & Hat).
    split; assumption.
  - exact (run_loop_schedule pingEveryLoop schedule HP this 0 w Hrun ltac:(lia)).
Qed.

End WorkerProofs.

(** A ping interval of 30 gives a cadence of 3: in nine turns the probe is
    issued on the fourth and on the eighth. *)
Lemma run_pings_on_cadence_witness :
  let db := {| m_delayQueue := []; m_pingIntervallms := 30 |} in
  let this := {| m_dbEngine := db; m_running := true; m_serialDelayQueue := [] |} in
  let schedule := replicate 9 ([], [SqlPlainRequest "UPDATE x"]) in
  let out := run fake_conn schedule this world0 in
  out.1.2 = 1%Z
  /\ count_events is_ping (trace out.2) = 2
  /\ m_running out.1.1 = false.
Proof.
  intros db this schedule out.
  destruct (run_pings_on_cadence fake_conn schedule this world0 eq_refl)
    as [_ Hrun].
  exact Hrun.
Defined.

(** ** Worked examples *)

(** [CancelAll] with two callbacks pending, one of which already carried a
    result. *)
Example CancelAll_two_pending :
  let answered := {| cb_id := 1; cb_threadSafe := true; cb_result := Some [["row"]] |} in
  let q := {| inbound := [answered; callback 2 false];
              _threadUnsafeWaitingQueries := [callback 3 false];
              numUnsafeQueries := 1; m_callbackThreads := [] |} in
  trace (CancelAll q world0).2
  = [EvCallbackExecute (callback 1 true); EvDeleteCallback (callback 1 true);
     EvCallbackExecute (callback 2 false); EvDeleteCallback (callback 2 false)]
  /\ _threadUnsafeWaitingQueries (CancelAll q world0).1 = [callback 3 false].
Proof. split; reflexivity. Qed.

(** Teardown with one operation in the delayed queue and two in the serial
    queue. *)
Example destroy_SqlDelayThread_three_pending :
  let db := {| m_delayQueue := [SqlPlainRequest "DELETE a"]; m_pingIntervallms := 30 |} in
  let this := {| m_dbEngine := db; m_running := false;
                 m_serialDelayQueue := [SqlPlainRequest "UPDATE b"; SqlTransaction []] |} in
  trace (destroy_SqlDelayThread fake_conn this world0).2
  = [EvLock; EvExecute "DELETE a"; EvUnlock;
     EvDeleteOperation (SqlPlainRequest "DELETE a");
     EvLock; EvExecute "UPDATE b"; EvUnlock;
     EvDeleteOperation (SqlPlainRequest "UPDATE b");
     EvDeleteOperation (SqlTransaction []);
     EvDeleteConnection].
Proof. reflexivity. Qed.

(** * Further properties of the code *)

(** ** The guard *)

Lemma new_events_app (w w' : World) (evs : list Event) :
  trace w' = trace w ++ evs -> new_events w w' = evs.
Proof. intros H. unfold new_events. rewrite H. apply drop_app_length. Qed.

Lemma guard_depth_app (t1 t2 : list Event) :
  forall d d', guard_depth d t1 = Some d' ->
               guard_depth d (t1 ++ t2) = guard_depth d' t2.
Proof.
  induction t1 as [|e t1 IH]; intros d d' H; simpl in *.
  - congruence.
  - destruct e; simpl in *; try (apply IH; exact H);
      destruct d; try discriminate; apply IH; exact H.
Qed.

Lemma balanced_inside (t : list Event) : balanced t -> inside t.
Proof. intros H d. apply H. Qed.

Lemma inside_app (t1 t2 : list Event) : inside t1 -> inside t2 -> inside (t1 ++ t2).
Proof.
  intros H1 H2 d. rewrite (guard_depth_app t1 t2 (S d) (S d) (H1 d)). apply H2.
Qed.

Lemma balanced_app (t1 t2 : list Event) :
  balanced t1 -> balanced t2 -> balanced (t1 ++ t2).
Proof.
  intros H1 H2 d. rewrite (guard_depth_app t1 t2 d d (H1 d)). apply H2.
Qed.

Lemma balanced_locked (t : list Event) :
  inside t -> balanced (EvLock :: t ++ [EvUnlock]).
Proof.
  intros H d. simpl. rewrite (guard_depth_app t [EvUnlock] (S d) (S d) (H d)).
  reflexivity.
Qed.

Lemma inside_queries (texts : list string) : inside (map EvQuery texts).
Proof.
  induction texts as [|sql texts IH]; intros d; [reflexivity|]. simpl. apply IH.
Qed.

Section GuardProofs.

Variable conn : SqlConnection.

Lemma transaction_loop_inside (nItems : Z) (members : list SqlOperation) :
  Forall (fun op => forall w, exists evs,
            trace (Execute conn op w).2 = trace w ++ evs /\ balanced evs) members ->
  forall (i : Z) (w : World),
  exists evs,
    trace (transaction_loop conn (Execute conn) nItems i members w).2
    = trace w ++ evs ++ [EvUnlock]
    /\ inside evs.
Proof.
  assert (Hcommit : forall w, exists evs,
            trace (Unlock (emit EvCommitTransaction w)) = trace w ++ evs ++ [EvUnlock]
            /\ inside evs).
  { intros w. exists [EvCommitTransaction]. split; [|intros d; reflexivity].
    unfold Unlock. rewrite !trace_emit, <- app_assoc. reflexivity. }
  induction 1 as [|op members Hop _ IH]; intros i w; simpl; [apply Hcommit|].
  destruct (i <? nItems)%Z; [|apply Hcommit].
  destruct (Hop w) as (e1 & He1 & Hb1).
  destruct (Execute conn op w) as [ok wm]. simpl in He1.
  destruct ok; simpl.
  - destruct (IH (i + 1)%Z wm) as (e2 & He2 & Hi2).
    exists (e1 ++ e2). split.
    + rewrite He2, He1, <- !app_assoc. reflexivity.
    + apply inside_app; [apply balanced_inside, Hb1|exact Hi2].
  - exists (e1 ++ [EvRollbackTransaction]). split.
    + rewrite He1, <- !app_assoc. reflexivity.
    + apply inside_app; [apply balanced_inside, Hb1|intros d; reflexivity].
Qed.

Lemma Execute_balanced (op : SqlOperation) :
  forall w, exists evs,
    trace (Execute conn op w).2 = trace w ++ evs /\ balanced evs.
Proof.
  induction op as [sql|members IH|idx par|sql cb q|h cb q]
    using SqlOperation_nested_ind; intros w.
  - exists [EvLock; EvExecute sql; EvUnlock]. split; [|intros d; reflexivity].
    simpl. rewrite <- !app_assoc. reflexivity.
  - destruct members as [|op members].
    + exists []. split; [symmetry; apply app_nil_r|intros d; reflexivity].
    + change (Execute conn (SqlTransaction (op :: members)) w)
        with (transaction_loop conn (Execute conn)
                (int_of_size (length (op :: members))) 0%Z (op :: members)
                (conn_BeginTransaction (Lock w))).
      destruct (transaction_loop_inside (int_of_size (length (op :: members)))
                  (op :: members) IH 0%Z (conn_BeginTransaction (Lock w)))
        as (evs & Hevs & Hin).
      exists (EvLock :: (EvBeginTransaction :: evs) ++ [EvUnlock]). split.
      * rewrite Hevs. unfold conn_BeginTransaction, Lock.
        rewrite !trace_emit, <- !app_assoc. reflexivity.
      * apply balanced_locked.
        apply (inside_app [EvBeginTransaction] evs); [intros d; reflexivity|exact Hin].
  - exists [EvLock; EvExecuteStmt idx par; EvUnlock]. split; [|intros d; reflexivity].
    simpl. rewrite <- !app_assoc. reflexivity.
  - destruct cb as [cb|], q as [q|];
      try (exists []; split; [symmetry; apply app_nil_r|intros d; reflexivity]).
    exists [EvLock; EvQuery sql; EvUnlock]. split; [|intros d; reflexivity].
    simpl. rewrite <- !app_assoc. reflexivity.
  - destruct h as [h|], cb as [cb|], q as [q|];
      try (exists []; split; [symmetry; apply app_nil_r|intros d; reflexivity]).
    destruct (holder_loop_run conn h (m_queries (holders (Lock w) h)) [] (Lock w) eq_refl)
      as (_ & Ht & _).
    simpl in Ht. rewrite run_slots_trace in Ht.
    exists (EvLock :: map EvQuery (slot_texts (m_queries (holders w h))) ++ [EvUnlock]).
    split; [|apply balanced_locked, inside_queries].
    simpl. simpl in Ht. rewrite Ht, <- !app_assoc. reflexivity.
Qed.

Lemma processed_balanced (ops : list SqlOperation) (w w' : World) :
  processed conn ops w w' ->
  exists evs, trace w' = trace w ++ evs /\ balanced evs.
Proof.
  induction 1 as [w|s ops w w' _ IH].
  - exists []. split; [symmetry; apply app_nil_r|intros d; reflexivity].
  - destruct IH as (e2 & He2 & Hb2).
    destruct (Execute_balanced s w) as (e1 & He1 & Hb1).
    rewrite trace_emit, He1 in He2.
    exists (e1 ++ [EvDeleteOperation s] ++ e2). split.
    + rewrite He2, <- !app_assoc. reflexivity.
    + apply balanced_app; [exact Hb1|].
      apply (balanced_app [EvDeleteOperation s] e2); [intros d; reflexivity|exact Hb2].
Qed.

(** X1.  Whatever the operation and whatever the connection answers, the
    effects of [Execute] keep the discipline of the guard: every call on
    the connection is made while a guard taken by [LOCK_DB_CONN] is alive,
    and every guard taken has been released when [Execute] returns.  The
    same holds for a whole [ProcessRequests], so the worker never leaves a
    drain with the connection locked. *)
Theorem Execute_keeps_guard_discipline
  (op : SqlOperation) (this : SqlDelayThread) (w : World) (d : nat) :
  guard_depth d (new_events w (Execute conn op w).2) = Some d
  /\ guard_depth d (new_events w (ProcessRequests conn this w).2) = Some d.
Proof.
  split.
  - destruct (Execute_balanced op w) as (evs & Hevs & Hb).
    rewrite (new_events_app _ _ _ Hevs). apply Hb.
  - destruct (processed_balanced _ _ _ (ProcessRequests_processed conn this w))
      as (evs & Hevs & Hb).
    rewrite (new_events_app _ _ _ Hevs). apply Hb.
Qed.

(** X2.  [Execute] does nothing but call the connection: the trace it
    finds is kept, every event it adds is a call on the connection, so it
    delivers no callback, deletes nothing, logs nothing and pings nothing,
    and it leaves the pool and the clock alone. *)
Theorem Execute_only_calls_connection (op : SqlOperation) (w : World) :
  let w' := (Execute conn op w).2 in
  trace w' = trace w ++ new_events w w'
  /\ forallb is_conn_event (new_events w w') = true
  /\ callback_events (new_events w w') = []
  /\ deleted_operations (new_events w w') = []
  /\ count_events is_ping (new_events w w') = 0
  /\ pool_trace w' = pool_trace w
  /\ timer_reads w' = timer_reads w.
Proof.
  intros w'. destruct (Execute_extends conn op w) as [(evs & Hevs & Hc) [Hp Hr]].
  fold w' in Hevs, Hp, Hr. rewrite (new_events_app _ _ _ Hevs).
  destruct (conn_events_no_deletion evs Hc) as [Hd Hping].
  split; [exact Hevs|]. split; [exact Hc|].
  split; [|split; [exact Hd|split; [exact Hping|split; assumption]]].
  clear - Hc. induction evs as [|e evs IH]; [reflexivity|].
  simpl in Hc. apply andb_true_iff in Hc as [He Hc].
  unfold callback_events in *. simpl.
  destruct e; try discriminate; simpl; apply IH, Hc.
Qed.

(** X3.  A turn of [run] that finds the counter at the cadence calls
    [Query("SELECT 1")] on the connection without a guard: the effects of
    the turn break the discipline that every operation keeps.  A turn
    below the cadence keeps it. *)
Theorem run_probe_is_unguarded
  (pingEveryLoop : Z) (a : Arrivals) (this : SqlDelayThread) (c : Z) (w : World) :
  (0 <= c)%Z -> (pingEveryLoop < 2 ^ 32 - 1)%Z ->
  let w' := (run_iteration conn pingEveryLoop a this c w).2 in
  ((pingEveryLoop <= c)%Z -> guard_depth 0 (new_events w w') = None)
  /\ ((c < pingEveryLoop)%Z -> guard_depth 0 (new_events w w') = Some 0).
Proof.
  intros Hc HP w'.
  destruct (run_iteration_step conn pingEveryLoop a this c w Hc HP)
    as (_ & Hbelow & Hat).
  destruct (processed_balanced _ _ _
              (ProcessRequests_processed conn (enqueue a this) w))
    as (evs & Hevs & Hb).
  split.
  - intros Hge. destruct (Hat Hge) as [_ Ht]. fold w' in Ht.
    rewrite Hevs, <- app_assoc in Ht.
    rewrite (new_events_app _ _ _ Ht).
    rewrite (guard_depth_app evs _ 0 0 (Hb 0)). reflexivity.
  - intros Hlt. destruct (Hbelow Hlt) as [_ Hw]. fold w' in Hw.
    rewrite Hw, (new_events_app _ _ _ Hevs). apply Hb.
Qed.

End GuardProofs.

(** ** Asynchronous queries *)

Section QueryProofs.

Variable conn : SqlConnection.

(** X4.  [SqlQuery::Execute] returns [false] and does nothing when the
    callback or the queue is missing.  Otherwise it returns [true] whether
    the query succeeded or not: under one guard it runs the query once,
    stores the answer, present or absent, in the callback, and appends the
    callback to the inbound channel of its own result queue, leaving the
    backlog of that queue, every other queue and every holder as they
    were. *)
Theorem SqlQuery_Execute_queues_callback
  (sql : string) (cb : IQueryCallback) (queue : QueuePtr) (w : World) :
  (forall m_callback m_queue,
     m_callback = None \/ m_queue = None ->
     Execute conn (SqlQuery sql m_callback m_queue) w = (false, w))
  /\ (let out := Execute conn (SqlQuery sql (Some cb) (Some queue)) w in
      out.1 = true
      /\ trace out.2 = trace w ++ [EvLock; EvQuery sql; EvUnlock]
      /\ inbound (queues out.2 queue)
         = inbound (queues w queue)
           ++ [Callback_SetResult (drv_Query conn (trace w ++ [EvLock]) sql) cb]
      /\ _threadUnsafeWaitingQueries (queues out.2 queue)
         = _threadUnsafeWaitingQueries (queues w queue)
      /\ (forall p, p <> queue -> queues out.2 p = queues w p)
      /\ holders out.2 = holders w).
Proof.
  split.
  - intros m_callback m_queue [-> | ->]; [reflexivity|].
    destruct m_callback; reflexivity.
  - simpl. split; [reflexivity|].
    split; [rewrite <- !app_assoc; reflexivity|].
    rewrite upd_same. simpl.
    split; [reflexivity|]. split; [reflexivity|].
    split; [|reflexivity].
    intros p Hp. apply upd_other, Hp.
Qed.

End QueryProofs.

(** ** Destructors *)

(** X5.  The destructor of [SqlTransaction] deletes every member once, the
    last one first, and leaves the sequence empty; it does so whether or
    not the members were ever executed. *)
Theorem SqlTransaction_destructor_deletes_members
  (m_queue : list SqlOperation) (w : World) :
  let out := SqlTransaction_destructor m_queue w in
  out.1 = []
  /\ trace out.2 = trace w ++ map EvDeleteOperation (rev m_queue)
  /\ deleted_operations (new_events w out.2) = map EvDeleteOperation (rev m_queue)
  /\ length (new_events w out.2) = length m_queue.
Proof.
  assert (Hloop : forall m_queue w,
            (SqlTransaction_destructor_loop (length m_queue) m_queue w).1 = []
            /\ trace (SqlTransaction_destructor_loop (length m_queue) m_queue w).2
               = trace w ++ map EvDeleteOperation (rev m_queue)).
  { clear. induction m_queue as [|back front IH] using rev_ind; intros w.
    - simpl. rewrite app_nil_r. split; reflexivity.
    - rewrite length_app, Nat.add_1_r. simpl.
      rewrite last_snoc, List.removelast_last.
      destruct (IH (emit (EvDeleteOperation back) w)) as [H1 H2].
      split; [exact H1|].
      rewrite H2, trace_emit, rev_app_distr, <- app_assoc. reflexivity. }
  intros out. destruct (Hloop m_queue w) as [H1 H2].
  fold (SqlTransaction_destructor m_queue w) in H1, H2. fold out in H1, H2.
  split; [exact H1|]. split; [exact H2|].
  rewrite (new_events_app _ _ _ H2).
  split; [|rewrite length_map, length_rev; reflexivity].
  unfold deleted_operations. generalize (rev m_queue). clear.
  intros ops. induction ops as [|op ops IH]; [reflexivity|].
  simpl. rewrite IH. reflexivity.
Qed.

(** ** The worker and its queues *)

Section WorkerOrderProofs.

Variable conn : SqlConnection.

Lemma submit_serial_queue (ops : list SqlOperation) :
  forall this,
    m_serialDelayQueue (submit_serial ops this) = m_serialDelayQueue this ++ ops
    /\ m_dbEngine (submit_serial ops this) = m_dbEngine this
    /\ m_running (submit_serial ops this) = m_running this.
Proof.
  unfold submit_serial.
  induction ops as [|op ops IH]; intros this; simpl.
  - rewrite app_nil_r. repeat split.
  - destruct (IH (addSerialOperation op this)) as (Hq & Hd & Hr).
    rewrite Hq, Hd, Hr. unfold addSerialOperation, LockedQueue_add. simpl.
    rewrite <- app_assoc. repeat split.
Qed.

(** X6.  Operations handed to [addSerialOperation] are run by the next
    [ProcessRequests] in the order they were submitted, after whatever the
    serial queue already held and after the delayed queue, each executed
    once and deleted right after.  [HasAsyncQuery] is [true] once one has
    been submitted and [false] again after the drain, which leaves both
    queues empty. *)
Theorem serial_operations_run_in_submission_order
  (ops : list SqlOperation) (this : SqlDelayThread) (w : World) :
  let this' := submit_serial ops this in
  let out := ProcessRequests conn this' w in
  (ops <> [] -> HasAsyncQuery this' = true)
  /\ processed conn
       (m_delayQueue (m_dbEngine this) ++ m_serialDelayQueue this ++ ops) w out.2
  /\ deleted_operations (trace out.2)
     = deleted_operations (trace w)
       ++ map EvDeleteOperation
            (m_delayQueue (m_dbEngine this) ++ m_serialDelayQueue this ++ ops)
  /\ HasAsyncQuery out.1 = false
  /\ m_delayQueue (m_dbEngine out.1) = []
  /\ m_running out.1 = m_running this.
Proof.
  intros this' out.
  destruct (submit_serial_queue ops this) as (Hq & Hd & Hr).
  fold this' in Hq, Hd, Hr.
  pose proof (ProcessRequests_processed conn this' w) as Hproc.
  rewrite Hq, Hd in Hproc. fold out in Hproc.
  split.
  - intros Hne. unfold HasAsyncQuery. rewrite Hq.
    destruct (m_serialDelayQueue this); [destruct ops; [contradiction|]|]; reflexivity.
  - split; [exact Hproc|].
    destruct (processed_trace conn _ _ _ Hproc) as (_ & Hdel & _).
    split; [exact Hdel|].
    split; [reflexivity|]. split; [reflexivity|exact Hr].
Qed.

Lemma run_operations_empty_queues (this : SqlDelayThread) (schedule : list Arrivals) :
  m_delayQueue (m_dbEngine this) = [] -> m_serialDelayQueue this = [] ->
  run_operations this schedule
  = flat_map (fun a : Arrivals => fst a ++ snd a) schedule.
Proof.
  intros Hd Hs. destruct schedule as [|a schedule]; [reflexivity|].
  unfold run_operations. rewrite Hd, Hs. simpl. rewrite <- app_assoc. reflexivity.
Qed.

Lemma run_loop_operations (pingEveryLoop : Z) (schedule : list Arrivals) :
  forall (this : SqlDelayThread) (c : Z) (w : World),
    m_running this = true ->
    let out := run_loop conn pingEveryLoop schedule this c w in
    deleted_operations (trace out.2)
    = deleted_operations (trace w)
      ++ map EvDeleteOperation (run_operations this schedule)
    /\ m_running out.1.1 = false
    /\ m_pingIntervallms (m_dbEngine out.1.1) = m_pingIntervallms (m_dbEngine this)
    /\ match schedule with
       | [] => m_delayQueue (m_dbEngine out.1.1) = m_delayQueue (m_dbEngine this)
               /\ m_serialDelayQueue out.1.1 = m_serialDelayQueue this
       | _ :: _ => m_delayQueue (m_dbEngine out.1.1) = []
                   /\ m_serialDelayQueue out.1.1 = []
       end.
Proof.
  induction schedule as [|a schedule IH]; intros this c w Hrun out.
  - unfold out. simpl. rewrite Hrun. simpl. rewrite app_nil_r. repeat split.
  - unfold out. cbn [run_loop]. rewrite Hrun.
    pose proof (ProcessRequests_processed conn (enqueue a this) w) as Hproc.
    destruct (processed_trace conn _ _ _ Hproc) as (_ & Hdel & _).
    unfold run_iteration.
    destruct (ProcessRequests conn (enqueue a this) w) as [this1 w1] eqn:Hreq.
    assert (Hthis1 : m_running this1 = true
                     /\ m_delayQueue (m_dbEngine this1) = []
                     /\ m_serialDelayQueue this1 = []
                     /\ m_pingIntervallms (m_dbEngine this1)
                        = m_pingIntervallms (m_dbEngine this)).
    { unfold ProcessRequests in Hreq. injection Hreq as <- _. simpl.
      repeat split. exact Hrun. }
    destruct Hthis1 as (Hrun1 & Hd1 & Hs1 & Hp1).
    simpl in Hdel.
    assert (Hops : run_operations this (a :: schedule)
                   = ((m_delayQueue (m_dbEngine this) ++ fst a)
                      ++ (m_serialDelayQueue this ++ snd a))
                     ++ run_operations this1 schedule).
    { rewrite (run_operations_empty_queues this1 schedule Hd1 Hs1).
      unfold run_operations. rewrite <- !app_assoc. reflexivity. }
    rewrite Hops, map_app, app_assoc, <- Hdel.
    assert (Htail : forall cn wn,
              deleted_operations (trace wn) = deleted_operations (trace w1) ->
              let out := run_loop conn pingEveryLoop schedule this1 cn wn in
              deleted_operations (trace out.2)
              = deleted_operations (trace w1)
                ++ map EvDeleteOperation (run_operations this1 schedule)
              /\ m_running out.1.1 = false
              /\ m_pingIntervallms (m_dbEngine out.1.1)
                 = m_pingIntervallms (m_dbEngine this)
              /\ m_delayQueue (m_dbEngine out.1.1) = []
              /\ m_serialDelayQueue out.1.1 = []).
    { intros cn wn Hsame outn.
      destruct (IH this1 cn wn Hrun1) as (H1 & H2 & H3 & H4). fold outn in H1, H2, H3, H4.
      rewrite Hsame in H1. split; [exact H1|]. split; [exact H2|].
      split; [congruence|].
      destruct schedule; destruct H4 as [H4 H5]; split; congruence. }
    destruct (c >=? pingEveryLoop)%Z.
    + apply Htail. unfold conn_Query. simpl.
      unfold deleted_operations. rewrite <- app_assoc, List.filter_app. simpl.
      apply app_nil_r.
    + apply Htail. reflexivity.
Qed.

Lemma turn_operations_empty_queues (this : SqlDelayThread) (schedule : list Arrivals) :
  m_delayQueue (m_dbEngine this) = [] -> m_serialDelayQueue this = [] ->
  turn_operations this schedule
  = map (fun a : Arrivals => fst a ++ snd a) schedule.
Proof.
  intros Hd Hs. destruct schedule as [|a schedule]; [reflexivity|].
  unfold turn_operations. rewrite Hd, Hs. reflexivity.
Qed.

Lemma run_loop_turns (pingEveryLoop : Z) (schedule : list Arrivals) :
  forall (this : SqlDelayThread) (c : Z) (w : World),
    m_running this = true ->
    turns_processed conn (turn_operations this schedule) w
      (run_loop conn pingEveryLoop schedule this c w).2.
Proof.
  induction schedule as [|a schedule IH]; intros this c w Hrun.
  - simpl. rewrite Hrun. constructor.
  - cbn [run_loop]. rewrite Hrun.
    pose proof (ProcessRequests_processed conn (enqueue a this) w) as Hproc.
    unfold run_iteration.
    destruct (ProcessRequests conn (enqueue a this) w) as [this1 w1] eqn:Hreq.
    assert (Hthis1 : m_running this1 = true
                     /\ m_delayQueue (m_dbEngine this1) = []
                     /\ m_serialDelayQueue this1 = []).
    { unfold ProcessRequests in Hreq. injection Hreq as <- _. simpl.
      repeat split. exact Hrun. }
    destruct Hthis1 as (Hrun1 & Hd1 & Hs1).
    simpl in Hproc.
    assert (Hops : turn_operations this (a :: schedule)
                   = ((m_delayQueue (m_dbEngine this) ++ fst a)
                      ++ (m_serialDelayQueue this ++ snd a))
                     :: turn_operations this1 schedule).
    { rewrite (turn_operations_empty_queues this1 schedule Hd1 Hs1). reflexivity. }
    rewrite Hops.
    destruct (c >=? pingEveryLoop)%Z.
    + eapply turns_processed_cons; [exact Hproc|right; reflexivity|].
      apply IH, Hrun1.
    + eapply turns_processed_cons; [exact Hproc|left; reflexivity|].
      apply IH, Hrun1.
Qed.

(** X7.  A run of the worker executes and deletes, once each, every
    operation that is in its queues when a turn begins: on the first turn
    what the queues held before together with the first arrivals, on each
    later turn the arrivals of that turn, always the delayed queue before
    the serial queue.  The probes come in between and delete nothing.  The
    destructor then does the same for what arrived after the last turn and
    executes nothing a second time; releasing the connection is its last
    effect.  The world after the run is the one reached by executing and
    deleting the operations of each turn in order, with or without a probe
    at the end of the turn, and the world after the destructor is reached
    from it by executing and deleting the late operations and releasing
    the connection. *)
Theorem run_then_teardown_runs_every_operation_once
  (schedule : list Arrivals) (late : Arrivals)
  (this : SqlDelayThread) (w : World) :
  m_running this = true ->
  let out := run conn schedule this w in
  let fin := destroy_SqlDelayThread conn (enqueue late out.1.1) out.2 in
  deleted_operations (trace out.2)
  = deleted_operations (trace w)
    ++ map EvDeleteOperation (run_operations this schedule)
  /\ deleted_operations (trace fin.2)
     = deleted_operations (trace w)
       ++ map EvDeleteOperation (run_operations this (schedule ++ [late]))
  /\ (exists t, trace fin.2 = t ++ [EvDeleteConnection])
  /\ m_delayQueue (m_dbEngine fin.1) = []
  /\ m_serialDelayQueue fin.1 = []
  /\ turns_processed conn (turn_operations this schedule) w out.2
  /\ (exists w',
        processed conn (teardown_operations this schedule late) out.2 w'
        /\ fin.2 = emit EvDeleteConnection w').
Proof.
  intros Hrun out fin.
  pose proof (run_loop_turns
                (uint32 (m_pingIntervallms (m_dbEngine this)) / loopSleepms)%Z
                schedule this 0%Z w Hrun) as Hturns.
  fold (run conn schedule this w) in Hturns. fold out in Hturns.
  destruct (run_loop_operations
              (uint32 (m_pingIntervallms (m_dbEngine this)) / loopSleepms)%Z
              schedule this 0%Z w Hrun) as (Hdel & _ & _ & Hqueues).
  fold (run conn schedule this w) in Hdel, Hqueues. fold out in Hdel, Hqueues.
  split; [exact Hdel|].
  pose proof (ProcessRequests_processed conn (enqueue late out.1.1) out.2) as Hproc.
  destruct (processed_trace conn _ _ _ Hproc) as (_ & Hdel2 & _).
  assert (Hfin : trace fin.2
                 = trace (ProcessRequests conn (enqueue late out.1.1) out.2).2
                   ++ [EvDeleteConnection]).
  { unfold fin, destroy_SqlDelayThread.
    destruct (ProcessRequests conn (enqueue late out.1.1) out.2). reflexivity. }
  split; [|split; [eexists; exact Hfin|]].
  - rewrite Hfin. unfold deleted_operations in *.
    rewrite List.filter_app.
    change (List.filter is_delete_operation [EvDeleteConnection]) with (@nil Event).
    rewrite app_nil_r, Hdel2, Hdel, <- app_assoc.
    f_equal. rewrite <- map_app. f_equal. simpl.
    destruct schedule as [|a schedule]; destruct Hqueues as [Hd Hs];
      rewrite Hd, Hs; simpl.
    + rewrite app_nil_r. reflexivity.
    + rewrite flat_map_app. simpl. rewrite app_nil_r, <- !app_assoc. reflexivity.
  - split; [reflexivity|]. split; [reflexivity|]. split; [exact Hturns|].
    exists (ProcessRequests conn (enqueue late out.1.1) out.2).2.
    split.
    + unfold teardown_operations.
      change (processed conn
                ((m_delayQueue (m_dbEngine out.1.1) ++ fst late)
                 ++ (m_serialDelayQueue out.1.1 ++ snd late))
                out.2 (ProcessRequests conn (enqueue late out.1.1) out.2).2)
        in Hproc.
      destruct schedule as [|a0 schedule]; destruct Hqueues as [Hd Hs];
        rewrite Hd, Hs in Hproc; exact Hproc.
    + unfold fin, destroy_SqlDelayThread.
      destruct (ProcessRequests conn (enqueue late out.1.1) out.2). reflexivity.
Qed.

End WorkerOrderProofs.

(** ** The result queue: pool, counter and warning *)

Section ResultQueueInvariants.

Variable getMSTime : nat -> Z.
Variable getMSTimeDiff : Z -> Z -> Z.

Lemma unsafe_of_unsafe (l : list IQueryCallback) :
  Forall (fun cb => IsThreadSafe cb = false) (unsafe_of l).
Proof.
  induction l as [|cb l IH]; simpl; [constructor|].
  destruct (IsThreadSafe cb) eqn:Hcb; simpl; [exact IH|].
  constructor; assumption.
Qed.

Lemma Update_collect_counter (pending : list IQueryCallback) :
  forall unsafe num tasks,
    num = Z.of_nat (length unsafe) ->
    (Z.of_nat (length (unsafe ++ unsafe_of pending)) < 2 ^ 32)%Z ->
    numUnsafeQueries (Update_collect pending unsafe num tasks)
    = Z.of_nat (length (unsafe ++ unsafe_of pending)).
Proof.
  induction pending as [|cb pending IH]; intros unsafe num tasks Hnum Hlt; simpl.
  - rewrite app_nil_r. exact Hnum.
  - simpl in Hlt. unfold IsThreadSafe in *. destruct (cb_threadSafe cb); simpl in *.
    + apply IH; assumption.
    + unfold LockedQueue_add.
      replace (unsafe ++ cb :: unsafe_of pending)
        with ((unsafe ++ [cb]) ++ unsafe_of pending) in *
        by (rewrite <- app_assoc; reflexivity).
      apply IH; [|exact Hlt].
      rewrite !length_app in *. simpl in *. unfold uint32.
      rewrite Z.mod_small; lia.
Qed.

Lemma Update_drain_counter (timeout begin : Z) (fifo : list IQueryCallback) :
  forall num w,
    num = Z.of_nat (length fifo) -> (num < 2 ^ 32)%Z ->
    let out := Update_drain getMSTime getMSTimeDiff timeout begin fifo num w in
    out.1.2 = Z.of_nat (length out.1.1).
Proof.
  induction fifo as [|s fifo IH]; intros num w Hnum Hlt; simpl; [exact Hnum|].
  cbn [length] in Hnum.
  assert (Hnext : uint32 (num - 1) = Z.of_nat (length fifo)).
  { unfold uint32. rewrite Z.mod_small; lia. }
  assert (Hlt' : (uint32 (num - 1) < 2 ^ 32)%Z) by (rewrite Hnext; lia).
  destruct (timeout =? 0)%Z; [apply IH; assumption|].
  unfold WorldTimer_getMSTimeDiffToNow, WorldTimer_getMSTime.
  destruct (_ >? timeout)%Z; [exact Hnext|].
  apply IH; assumption.
Qed.

(** X8.  [Update] keeps the backlog and its counter in step.  If the
    backlog holds thread-unsafe callbacks only and [numUnsafeQueries] is
    its length, then the same is true after the call, and the call logs
    the performance warning exactly when more than 1000 callbacks are left
    in the backlog, with their number.  The counter is a 32-bit one, hence
    the bound. *)
Theorem Update_keeps_backlog_consistent
  (timeout : Z) (q : SqlResultQueue) (w : World) :
  backlog_consistent q ->
  (Z.of_nat (length (_threadUnsafeWaitingQueries q ++ unsafe_of (inbound q)))
   < 2 ^ 32)%Z ->
  let q' := (Update getMSTime getMSTimeDiff timeout q w).1 in
  let w' := (Update getMSTime getMSTimeDiff timeout q w).2 in
  let left := Z.of_nat (length (_threadUnsafeWaitingQueries q')) in
  backlog_consistent q'
  /\ exists done,
       _threadUnsafeWaitingQueries q ++ unsafe_of (inbound q)
       = done ++ _threadUnsafeWaitingQueries q'
       /\ trace w' = trace w ++ flat_map delivered done
                     ++ (if (left >? 1000)%Z
                         then [EvLog (LogUnsafeRemaining left)] else []).
Proof.
  intros [Hunsafe Hnum] Hlt q' w' left.
  destruct (Update_prefix getMSTime getMSTimeDiff timeout q w)
    as (done & rest & Hsplit & Hrest & _ & Htrace & _).
  fold q' in Hrest, Htrace. fold w' in Htrace.
  assert (Hcount : numUnsafeQueries q' = left).
  { unfold left, q', Update, WorldTimer_getMSTime, processWorkload. simpl.
    destruct (Update_collect_fields (inbound q) (_threadUnsafeWaitingQueries q)
                (numUnsafeQueries q) (m_callbackThreads q)) as (_ & Hu & _).
    pose proof (Update_collect_counter (inbound q) (_threadUnsafeWaitingQueries q)
                  (numUnsafeQueries q) (m_callbackThreads q) Hnum Hlt) as Hc.
    rewrite Hu.
    set (num0 := numUnsafeQueries (Update_collect _ _ _ _)) in *.
    set (w0 := set_pool_trace _ _).
    pose proof (Update_drain_counter timeout (getMSTime (timer_reads w))
                  (_threadUnsafeWaitingQueries q ++ unsafe_of (inbound q))
                  num0 w0 Hc ltac:(lia)) as Hd.
    destruct (Update_drain getMSTime getMSTimeDiff timeout _ _ num0 w0)
      as [[fifo' num'] wd]. exact Hd. }
  split; [split|].
  - rewrite Hrest.
    assert (Hall : Forall (fun cb => IsThreadSafe cb = false) (done ++ rest)).
    { rewrite <- Hsplit. apply Forall_app. split; [exact Hunsafe|apply unsafe_of_unsafe]. }
    apply Forall_app in Hall. apply Hall.
  - exact Hcount.
  - exists done. rewrite Hrest. split; [exact Hsplit|].
    rewrite Htrace, Hcount. reflexivity.
Qed.

(** X9.  [Update] hands every thread-safe callback it collects to the
    pool, in the order collected and after the tasks already queued there,
    and empties the inbound channel and the task list.  On the calling
    thread it delivers callbacks of the backlog only: when the backlog
    held thread-unsafe callbacks only, no thread-safe callback is
    delivered on the calling thread. *)
Theorem Update_dispatches_thread_safe_to_pool
  (timeout : Z) (q : SqlResultQueue) (w : World) :
  let q' := (Update getMSTime getMSTimeDiff timeout q w).1 in
  let w' := (Update getMSTime getMSTimeDiff timeout q w).2 in
  pool_trace w'
  = pool_trace w ++ flat_map delivered (m_callbackThreads q ++ safe_of (inbound q))
  /\ inbound q' = []
  /\ m_callbackThreads q' = []
  /\ (Forall (fun cb => IsThreadSafe cb = false) (_threadUnsafeWaitingQueries q) ->
      forall cb, In (EvCallbackExecute cb) (new_events w w') ->
                 IsThreadSafe cb = false).
Proof.
  intros q' w'.
  destruct (Update_prefix getMSTime getMSTimeDiff timeout q w)
    as (done & rest & Hsplit & _ & Hin & Htrace & Hpool & _).
  fold q' in Hin, Htrace. fold w' in Htrace, Hpool.
  split; [exact Hpool|]. split; [exact Hin|]. split.
  - unfold q', Update, WorldTimer_getMSTime, processWorkload. simpl.
    destruct (Update_drain _ _ _ _ _ _ _) as [[fifo' num'] wd]. reflexivity.
  - intros Hunsafe cb Hcb.
    rewrite (new_events_app _ _ _ Htrace) in Hcb.
    assert (Hall : Forall (fun cb => IsThreadSafe cb = false) (done ++ rest)).
    { rewrite <- Hsplit. apply Forall_app. split; [exact Hunsafe|apply unsafe_of_unsafe]. }
    apply Forall_app in Hall as [Hdone _].
    apply in_app_or in Hcb as [Hcb|Hcb].
    + apply in_flat_map in Hcb as (cb' & Hcb' & Hev).
      rewrite Forall_forall in Hdone.
      destruct Hev as [[= <-]|[[=]|[]]].
      apply Hdone. apply list_elem_of_In, Hcb'.
    + unfold warning in Hcb. destruct (_ >? 1000)%Z; [|destruct Hcb].
      destruct Hcb as [[=]|[]].
Qed.

End ResultQueueInvariants.

(** ** From the worker to the owner of the callback *)

Section Delivery.

Variable conn : SqlConnection.
Variable getMSTime : nat -> Z.
Variable getMSTimeDiff : Z -> Z -> Z.

(** X10.  An asynchronous query from end to end.  When the worker has run
    a [SqlQuery] whose result queue was freshly constructed, one [Update]
    of that queue, whatever its budget, delivers the callback once with
    the answer of the query and releases it: on the pool when the callback
    is thread-safe, on the calling thread when it is not.  The queue is
    then as constructed, so a later [Update] finds nothing to deliver
    again. *)
Theorem async_query_is_delivered_once
  (sql : string) (cb : IQueryCallback) (queue : QueuePtr) (timeout : Z)
  (w : World) :
  queues w queue = new_SqlResultQueue ->
  let w1 := (Execute conn (SqlQuery sql (Some cb) (Some queue)) w).2 in
  let answered := Callback_SetResult (drv_Query conn (trace w ++ [EvLock]) sql) cb in
  let out := Update getMSTime getMSTimeDiff timeout (queues w1 queue) w1 in
  out.1 = new_SqlResultQueue
  /\ (if IsThreadSafe cb
      then pool_trace out.2 = pool_trace w ++ delivered answered
           /\ callback_events (trace out.2) = callback_events (trace w)
      else callback_events (trace out.2)
           = callback_events (trace w) ++ delivered answered
           /\ pool_trace out.2 = pool_trace w).
Proof.
  intros Hfresh w1 answered out.
  assert (Hq : queues w1 queue
               = {| inbound := [answered]; _threadUnsafeWaitingQueries := [];
                    numUnsafeQueries := 0; m_callbackThreads := [] |}).
  { unfold w1. simpl. rewrite upd_same, Hfresh. reflexivity. }
  assert (Ht : trace w1 = trace w ++ [EvLock; EvQuery sql; EvUnlock]).
  { unfold w1. simpl. rewrite <- !app_assoc. reflexivity. }
  assert (Hp : pool_trace w1 = pool_trace w) by reflexivity.
  assert (Hc : callback_events (trace w1) = callback_events (trace w)).
  { rewrite Ht, callback_events_app. simpl. apply app_nil_r. }
  unfold out. rewrite Hq. clearbody w1. clear Hq Hfresh.
  assert (Hone : uint32 (uint32 (0 + 1) - 1) = 0%Z) by reflexivity.
  unfold IsThreadSafe. destruct cb as [id safe res]. subst answered.
  unfold Callback_SetResult. cbn [cb_id cb_threadSafe cb_result].
  set (answered := {| cb_id := id; cb_threadSafe := safe; cb_result := _ |}).
  unfold Update, WorldTimer_getMSTime, processWorkload,
    WorldTimer_getMSTimeDiffToNow.
  destruct safe.
  - unfold callback_events in *. cbn -[List.filter]. rewrite Hp, Hc. repeat split.
  - cbn -[uint32 Z.gtb Z.eqb].
    destruct (timeout =? 0)%Z; [|destruct (_ >? timeout)%Z];
      cbn -[uint32 Z.gtb Z.eqb]; rewrite Hone; cbn;
      rewrite ?app_nil_r, Hp; (split; [reflexivity|]); (split; [|reflexivity]);
      unfold callback_events in *;
      rewrite !List.filter_app, Hc, <- ?app_assoc; reflexivity.
Qed.

Lemma CancelAll_loop_trace (pending : list IQueryCallback) :
  forall w,
    trace (CancelAll_loop pending w)
    = trace w ++ flat_map (fun cb => delivered (Callback_SetResult None cb)) pending
    /\ pool_trace (CancelAll_loop pending w) = pool_trace w
    /\ timer_reads (CancelAll_loop pending w) = timer_reads w.
Proof.
  induction pending as [|cb pending IH]; intros w; simpl.
  - rewrite app_nil_r. repeat split.
  - destruct (IH (delete_callback (Callback_SetResult None cb)
                    (Callback_Execute (Callback_SetResult None cb) w)))
      as (Ht & Hp & Hr).
    rewrite Ht, Hp, Hr. unfold delete_callback, Callback_Execute.
    rewrite !trace_emit, <- !app_assoc. repeat split.
Qed.

(** X11.  [CancelAll] fires the callbacks of the inbound channel only,
    thread-safe ones included, on the calling thread; those waiting in the
    backlog and the tasks queued for the pool are not fired by it.  They
    are delivered, with the results they carry, by the next [Update]: over
    the two calls every callback is delivered and released exactly
    once. *)
Theorem CancelAll_then_Update_delivers_backlog
  (q : SqlResultQueue) (w : World) :
  let q1 := (CancelAll q w).1 in
  let w1 := (CancelAll q w).2 in
  let q2 := (Update getMSTime getMSTimeDiff 0 q1 w1).1 in
  let w2 := (Update getMSTime getMSTimeDiff 0 q1 w1).2 in
  callback_events (new_events w w1)
  = flat_map (fun cb => delivered (Callback_SetResult None cb)) (inbound q)
  /\ callback_events (new_events w1 w2)
     = flat_map delivered (_threadUnsafeWaitingQueries q)
  /\ pool_trace w2 = pool_trace w ++ flat_map delivered (m_callbackThreads q)
  /\ inbound q2 = [] /\ _threadUnsafeWaitingQueries q2 = []
  /\ m_callbackThreads q2 = [].
Proof.
  intros q1 w1 q2 w2.
  destruct (CancelAll_loop_trace (inbound q) w) as (Ht1 & Hp1 & _).
  change (CancelAll_loop (inbound q) w) with w1 in Ht1, Hp1.
  destruct (Update_prefix getMSTime getMSTimeDiff 0 q1 w1)
    as (done & rest & Hsplit & Hrest & Hin & Htrace & Hpool & _ & Hall & _).
  fold q2 in Hrest, Hin, Htrace. fold w2 in Htrace, Hpool.
  specialize (Hall eq_refl). rewrite Hall in Hsplit, Hrest.
  simpl in Hsplit, Hpool. rewrite !app_nil_r in Hsplit. rewrite app_nil_r in Hpool.
  rewrite <- Hsplit in Htrace.
  split; [|split; [|split; [|split; [exact Hin|split; [exact Hrest|]]]]].
  - rewrite (new_events_app _ _ _ Ht1).
    generalize (inbound q). clear. intros l.
    induction l as [|cb l IH]; [reflexivity|].
    simpl. do 2 f_equal. exact IH.
  - rewrite (new_events_app _ _ _ Htrace).
    rewrite callback_events_app, callback_events_delivered, callback_events_warning.
    apply app_nil_r.
  - rewrite Hpool, Hp1. reflexivity.
  - unfold q2, Update, WorldTimer_getMSTime, processWorkload. simpl.
    destruct (Update_drain _ _ _ _ _ _ _) as [[fifo' num'] wd]. reflexivity.
Qed.

End Delivery.

(** ** The holder: results, reuse, resizing and release *)

(** X12.  [SqlQueryHolder::SetResult] ignores an index out of range.  In
    range it replaces the result of the slot and nothing else: the text of
    the slot, the other slots and the size stay, and a [TakeResult] that
    follows returns exactly the result that was set. *)
Theorem SetResult_then_TakeResult
  (index : nat) (result : option QueryResult) (this : SqlQueryHolder) (w : World) :
  (length (m_queries this) <= index -> SetResult index result this = this)
  /\ (forall text r, m_queries this !! index = Some (text, r) ->
        m_queries (SetResult index result this) !! index = Some (text, result)
        /\ length (m_queries (SetResult index result this)) = length (m_queries this)
        /\ (forall j, j <> index ->
              m_queries (SetResult index result this) !! j = m_queries this !! j)
        /\ (TakeResult index (SetResult index result this) w).1.1 = result).
Proof.
  unfold SetResult. split.
  - intros Hge. destruct (decide (index < length (m_queries this))); [lia|reflexivity].
  - intros text r Hslot. pose proof (lookup_lt_Some _ _ _ Hslot) as Hlt.
    destruct (decide (index < length (m_queries this))); [|contradiction].
    rewrite Hslot. simpl.
    assert (Hnew : <[index := (text, result)]> (m_queries this) !! index
                   = Some (text, result)) by (apply list_lookup_insert_eq, Hlt).
    split; [exact Hnew|]. split; [apply length_insert|].
    split; [intros j Hj; apply list_lookup_insert_ne; congruence|].
    unfold TakeResult. simpl. rewrite length_insert.
    destruct (decide (index < length (m_queries this))); [|contradiction].
    rewrite Hnew. reflexivity.
Qed.

Lemma SetResult_then_TakeResult_witness :
  let h := {| m_queries := [(Some "SELECT a", None); (None, None)] |} in
  m_queries (SetResult 0 (Some [["1"]]) h) = [(Some "SELECT a", Some [["1"]]); (None, None)]
  /\ (TakeResult 0 (SetResult 0 (Some [["1"]]) h) world0).1.1 = Some [["1"]]
  /\ SetResult 2 (Some [["1"]]) h = h.
Proof.
  intros h.
  destruct (SetResult_then_TakeResult 0 (Some [["1"]]) h world0) as [_ Hin].
  destruct (SetResult_then_TakeResult 2 (Some [["1"]]) h world0) as [Hout _].
  destruct (Hin (Some "SELECT a") None eq_refl) as (_ & _ & _ & Htake).
  split; [reflexivity|]. split; [exact Htake|].
  apply Hout. simpl. lia.
Defined.

(** X13.  A slot can be used again after its result was taken:
    [TakeResult] on an index in range, whatever the slot held, leaves a
    slot on which [SetQuery] succeeds and stores the new text, the other
    slots being as they were before the take. *)
Theorem TakeResult_frees_slot_for_SetQuery
  (index : nat) (sql : string) (this : SqlQueryHolder) (w : World) :
  index < length (m_queries this) ->
  let taken := TakeResult index this w in
  SetQuery index sql taken.1.2 taken.2
  = (true, {| m_queries := <[index := (Some sql, None)]> (m_queries this) |}, taken.2).
Proof.
  intros Hlt taken. unfold taken, TakeResult.
  destruct (decide (index < length (m_queries this))); [|contradiction].
  destruct (lookup_lt_is_Some_2 _ _ Hlt) as [[text r] Hslot].
  rewrite Hslot. simpl. unfold SetQuery. simpl. rewrite length_insert.
  destruct (decide (length (m_queries this) <= index)); [lia|].
  rewrite list_lookup_insert_eq by exact Hlt.
  rewrite list_insert_insert_eq. reflexivity.
Qed.

Lemma TakeResult_frees_slot_for_SetQuery_witness :
  let h := {| m_queries := [(Some "SELECT a", Some [["1"]])] |} in
  (SetQuery 0 "SELECT b" h world0).1.1 = false
  /\ (SetQuery 0 "SELECT b" (TakeResult 0 h world0).1.2 (TakeResult 0 h world0).2).1
     = (true, {| m_queries := [(Some "SELECT b", None)] |}).
Proof.
  intros h. split; [reflexivity|].
  rewrite (TakeResult_frees_slot_for_SetQuery 0 "SELECT b" h world0
             ltac:(simpl; lia)).
  reflexivity.
Defined.

(** X14.  [SqlQueryHolder::DeleteAllResults] empties the result of every
    slot and keeps every text and the size.  Doing it twice is doing it
    once.  A slot that holds a text is therefore still refused by
    [SetQuery] afterwards, and [TakeResult] returns the empty result. *)
Theorem DeleteAllResults_keeps_texts
  (this : SqlQueryHolder) (index : nat) (sql : string) (w : World) :
  length (m_queries (DeleteAllResults this)) = length (m_queries this)
  /\ m_queries (DeleteAllResults this) !! index
     = (fun slot : SqlResultPair => (fst slot, None)) <$> m_queries this !! index
  /\ slot_texts (m_queries (DeleteAllResults this)) = slot_texts (m_queries this)
  /\ DeleteAllResults (DeleteAllResults this) = DeleteAllResults this
  /\ (SetQuery index sql (DeleteAllResults this) w).1.1
     = (SetQuery index sql this w).1.1
  /\ (TakeResult index (DeleteAllResults this) w).1.1 = None.
Proof.
  unfold DeleteAllResults. simpl.
  assert (Hlook : map (fun slot : SqlResultPair => (fst slot, @None QueryResult))
                       (m_queries this) !! index
                  = (fun slot : SqlResultPair => (fst slot, @None QueryResult))
                      <$> m_queries this !! index)
    by apply list_lookup_fmap.
  split; [apply length_map|]. split; [exact Hlook|].
  split; [|split; [|split]].
  - generalize (m_queries this). clear. intros l.
    induction l as [|[text r] l IH]; [reflexivity|].
    unfold slot_texts in *. cbn. destruct text; cbn; [f_equal|]; exact IH.
  - f_equal. rewrite map_map. reflexivity.
  - unfold SetQuery. simpl. rewrite length_map, Hlook.
    destruct (decide (length (m_queries this) <= index)); [reflexivity|].
    destruct (m_queries this !! index) as [[[old|] r]|]; reflexivity.
  - unfold TakeResult. simpl. rewrite length_map, Hlook.
    destruct (decide (index < length (m_queries this))); [|reflexivity].
    destruct (m_queries this !! index) as [[text r]|]; reflexivity.
Qed.

(** X15.  [SqlQueryHolder::SetSize] gives the holder exactly the requested
    number of slots: the slots below both the old and the new size are
    kept as they are, the slots added are empty.  On a holder sized this
    way from nothing, [SetQuery] succeeds on exactly the indices below the
    size. *)
Theorem SetSize_resizes (size : nat) (this : SqlQueryHolder) :
  length (m_queries (SetSize size this)) = size
  /\ (forall i, i < size -> i < length (m_queries this) ->
        m_queries (SetSize size this) !! i = m_queries this !! i)
  /\ (forall i, length (m_queries this) <= i -> i < size ->
        m_queries (SetSize size this) !! i = Some (None, None))
  /\ (forall i sql w,
        (SetQuery i sql (SetSize size {| m_queries := [] |}) w).1.1
        = bool_decide (i < size)).
Proof.
  unfold SetSize. simpl. split; [|split; [|split]].
  - rewrite length_app, length_take, length_replicate. lia.
  - intros i Hi Hlt. rewrite lookup_app_l by (rewrite length_take; lia).
    apply lookup_take_lt. exact Hi.
  - intros i Hge Hlt.
    rewrite lookup_app_r by (rewrite length_take; lia).
    rewrite length_take. apply lookup_replicate_2. lia.
  - intros i sql w. unfold SetQuery. simpl.
    rewrite take_nil, Nat.sub_0_r. simpl. rewrite length_replicate.
    destruct (decide (size <= i)) as [Hge|Hlt].
    + rewrite bool_decide_eq_false_2 by lia. reflexivity.
    + rewrite bool_decide_eq_true_2 by lia.
      rewrite lookup_replicate_2 by lia. reflexivity.
Qed.

Lemma SetSize_resizes_witness :
  let h := {| m_queries := [(Some "SELECT a", None); (Some "SELECT b", None)] |} in
  m_queries (SetSize 3 h) = [(Some "SELECT a", None); (Some "SELECT b", None); (None, None)]
  /\ m_queries (SetSize 1 h) !! 0 = Some (Some "SELECT a", None)
  /\ m_queries (SetSize 3 h) !! 2 = Some (None, None).
Proof.
  intros h.
  destruct (SetSize_resizes 3 h) as (_ & _ & Hnew & _).
  destruct (SetSize_resizes 1 h) as (_ & Hkeep & _).
  split; [reflexivity|]. split.
  - rewrite (Hkeep 0); [reflexivity|lia|simpl; lia].
  - apply Hnew; simpl; lia.
Defined.

Lemma freed_texts_app (t1 t2 : list Event) :
  freed_texts (t1 ++ t2) = freed_texts t1 ++ freed_texts t2.
Proof. apply omap_app. Qed.

Lemma freed_texts_deletions (texts : list string) :
  freed_texts (map EvDeleteText texts) = texts.
Proof.
  induction texts as [|t texts IH]; [reflexivity|].
  unfold freed_texts in *. cbn. f_equal. exact IH.
Qed.

Lemma SqlQueryHolder_destructor_loop_trace (this : SqlQueryHolder)
  (suf : list SqlResultPair) :
  forall (pre : list SqlResultPair) (w : World),
    m_queries this = pre ++ suf ->
    trace (SqlQueryHolder_destructor_loop (length suf) (length pre) this w)
    = trace w ++ map EvDeleteText (slot_texts suf).
Proof.
  induction suf as [|[text r] suf IH]; intros pre w Hq; simpl.
  - symmetry. apply app_nil_r.
  - assert (Hlt : length pre < length (m_queries this)).
    { rewrite Hq, length_app. simpl. lia. }
    destruct (decide (length pre < length (m_queries this))); [|contradiction].
    assert (Hslot : m_queries this !! length pre = Some (text, r)).
    { rewrite Hq. apply list_lookup_middle. reflexivity. }
    rewrite Hslot.
    assert (Hq1 : m_queries this = (pre ++ [(text, r)]) ++ suf).
    { rewrite Hq, <- app_assoc. reflexivity. }
    pose proof (IH (pre ++ [(text, r)])) as IH1.
    rewrite length_app in IH1. simpl in IH1. rewrite Nat.add_1_r in IH1.
    destruct text as [t|].
    + rewrite (IH1 _ Hq1), trace_emit, <- app_assoc. reflexivity.
    + rewrite (IH1 _ Hq1). reflexivity.
Qed.

(** Emptying a slot takes its text, if it had one, out of the texts of the
    holder and leaves the others. *)
Lemma slot_texts_take (slots : list SqlResultPair) :
  forall i text r,
    slots !! i = Some (text, r) ->
    slot_texts slots
    ≡ₚ match text with Some t => [t] | None => [] end
       ++ slot_texts (<[i := (None, None)]> slots).
Proof.
  induction slots as [|[text0 r0] slots IH]; intros i text r Hslot; [discriminate|].
  destruct i as [|i]; simpl in Hslot.
  - injection Hslot as -> ->. unfold slot_texts. cbn.
    destruct text; reflexivity.
  - specialize (IH i text r Hslot). unfold slot_texts in *. cbn.
    destruct text0 as [t0|]; cbn; [|exact IH].
    rewrite IH. destruct text; cbn; [apply Permutation_swap|reflexivity].
Qed.

Lemma take_results_texts (indices : list nat) :
  forall (this : SqlQueryHolder) (w : World),
  exists evs,
    trace (take_results indices this w).2 = trace w ++ evs
    /\ evs = map EvDeleteText (freed_texts evs)
    /\ freed_texts evs ++ slot_texts (m_queries (take_results indices this w).1)
       ≡ₚ slot_texts (m_queries this).
Proof.
  induction indices as [|index indices IH]; intros this w; simpl.
  - exists []. split; [symmetry; apply app_nil_r|]. split; reflexivity.
  - unfold TakeResult.
    destruct (decide (index < length (m_queries this))) as [Hlt|Hge];
      [|apply IH].
    destruct (lookup_lt_is_Some_2 _ _ Hlt) as [[text r] Hslot].
    rewrite Hslot.
    pose proof (slot_texts_take _ _ _ _ Hslot) as Hperm.
    set (this1 := {| m_queries := <[index := (None, None)]> (m_queries this) |}).
    destruct text as [t|].
    + destruct (IH this1 (emit (EvDeleteText t) w)) as (evs & Ht & He & Hp).
      exists (EvDeleteText t :: evs). split; [|split].
      * rewrite Ht, trace_emit, <- app_assoc. reflexivity.
      * change (freed_texts (EvDeleteText t :: evs)) with (t :: freed_texts evs).
        simpl. f_equal. exact He.
      * rewrite Hperm. change (freed_texts (EvDeleteText t :: evs))
          with (t :: freed_texts evs). simpl. rewrite Hp. reflexivity.
    + destruct (IH this1 w) as (evs & Ht & He & Hp).
      exists evs. split; [exact Ht|]. split; [exact He|].
      rewrite Hperm, Hp. reflexivity.
Qed.

(** X16.  Every text stored in a holder is released exactly once.  The
    destructor of [SqlQueryHolder] releases the text of each slot that
    still holds one, in index order, and nothing else.  After any
    sequence of [TakeResult] calls, on any indices, repeated or out of
    range, the calls and the destructor do nothing but release texts, and
    the texts they release are the texts the holder held at the start,
    each once. *)
Theorem holder_texts_released_exactly_once
  (indices : list nat) (this : SqlQueryHolder) (w : World) :
  trace (SqlQueryHolder_destructor this w)
  = trace w ++ map EvDeleteText (slot_texts (m_queries this))
  /\ (let taken := take_results indices this w in
      let w' := SqlQueryHolder_destructor taken.1 taken.2 in
      freed_texts (new_events w w') ≡ₚ slot_texts (m_queries this)
      /\ new_events w w' = map EvDeleteText (freed_texts (new_events w w'))).
Proof.
  split.
  - apply (SqlQueryHolder_destructor_loop_trace this (m_queries this) [] w eq_refl).
  - intros taken w'.
    destruct (take_results_texts indices this w) as (evs & Ht & He & Hp).
    fold taken in Ht, Hp.
    pose proof (SqlQueryHolder_destructor_loop_trace taken.1 (m_queries taken.1)
                  [] taken.2 eq_refl) as Hd.
    change (SqlQueryHolder_destructor_loop _ _ _ _) with w' in Hd.
    rewrite Ht, <- app_assoc in Hd.
    rewrite (new_events_app _ _ _ Hd).
    rewrite freed_texts_app, freed_texts_deletions. split; [exact Hp|].
    rewrite map_app, <- He. reflexivity.
Qed.

(** ** Formatted queries that fit *)

Lemma substring_0_all (n : nat) (s : string) :
  String.length s <= n -> String.substring 0 n s = s.
Proof.
  revert s. induction n as [|n IH]; intros [|c s] Hlen; simpl in *;
    try reflexivity; try lia.
  rewrite IH by lia. reflexivity.
Qed.

(** X17.  [SqlQueryHolder::SetPQuery] with a text that fits the buffer,
    terminator included, does exactly what [SetQuery] does with the whole
    text.  A null format is refused with its own log line, and so is a
    formatting failure; neither changes the holder. *)
Theorem SetPQuery_fitting_is_SetQuery
  (MAX_QUERY_LEN index : nat) (fmt s : string)
  (this : SqlQueryHolder) (w : World) :
  (String.length s < MAX_QUERY_LEN ->
   (Z.of_nat (String.length s) <= INT_MAX)%Z ->
   SetPQuery MAX_QUERY_LEN index (Some fmt) (Some s) this w
   = SetQuery index s this w)
  /\ (forall expansion,
        SetPQuery MAX_QUERY_LEN index None expansion this w
        = (false, this, emit (EvLog (LogEmptyFormat index)) w))
  /\ SetPQuery MAX_QUERY_LEN index (Some fmt) None this w
     = (false, this, emit (EvLog (LogTruncated fmt)) w).
Proof.
  split; [|split; reflexivity].
  intros Hfit Hint. unfold SetPQuery, vsnprintf.
  destruct (Z.leb_spec (Z.of_nat (String.length s)) INT_MAX); [|lia].
  destruct (Z.eqb_spec (Z.of_nat (String.length s)) (-1)); [lia|].
  rewrite substring_0_all by lia. reflexivity.
Qed.

Lemma SetPQuery_fitting_is_SetQuery_witness :
  let h := {| m_queries := [(None, None)] |} in
  SetPQuery 16 0 (Some "%s") (Some "SELECT 1") h world0
  = (true, {| m_queries := [(Some "SELECT 1", None)] |}, world0).
Proof.
  intros h.
  destruct (SetPQuery_fitting_is_SetQuery 16 0 "%s" "SELECT 1" h world0) as [Hfit _].
  rewrite Hfit; [reflexivity|simpl; lia|vm_compute; discriminate].
Defined.

(** ** Instances *)

(** A turn at a cadence of 3 with the counter at 3, and one with the
    counter at 1. *)
Lemma run_probe_is_unguarded_witness :
  let this := new_SqlDelayThread {| m_delayQueue := []; m_pingIntervallms := 30 |} in
  let a : Arrivals := ([], [SqlPlainRequest "UPDATE x"]) in
  guard_depth 0 (new_events world0 (run_iteration fake_conn 3 a this 3 world0).2) = None
  /\ guard_depth 0 (new_events world0 (run_iteration fake_conn 3 a this 1 world0).2)
     = Some 0.
Proof.
  intros this a.
  destruct (run_probe_is_unguarded fake_conn 3 a this 3 world0
              ltac:(lia) ltac:(vm_compute; reflexivity)) as [Hat _].
  destruct (run_probe_is_unguarded fake_conn 3 a this 1 world0
              ltac:(lia) ltac:(vm_compute; reflexivity)) as [_ Hbelow].
  split; [apply Hat; lia|apply Hbelow; lia].
Defined.

(** A query that fails on the instrumented connection: the callback is
    queued all the same, with the empty result. *)
Lemma SqlQuery_Execute_queues_callback_witness :
  Execute fake_conn (SqlQuery "" None (Some 3)) world0 = (false, world0)
  /\ (Execute fake_conn (SqlQuery "" (Some (callback 1 false)) (Some 3)) world0).1 = true
  /\ inbound (queues (Execute fake_conn (SqlQuery "" (Some (callback 1 false)) (Some 3))
                        world0).2 3)
     = [callback 1 false].
Proof.
  destruct (SqlQuery_Execute_queues_callback fake_conn "" (callback 1 false) 3 world0)
    as [Hnull (Htrue & _ & Hqueue & _)].
  split; [apply Hnull; left; reflexivity|]. split; [exact Htrue|exact Hqueue].
Defined.

(** Two operations submitted to a fresh worker. *)
Lemma serial_operations_run_in_submission_order_witness :
  let this := new_SqlDelayThread {| m_delayQueue := []; m_pingIntervallms := 30 |} in
  let ops := [SqlPlainRequest "UPDATE a"; SqlPlainRequest "UPDATE b"] in
  HasAsyncQuery (submit_serial ops this) = true
  /\ deleted_operations (trace (ProcessRequests fake_conn (submit_serial ops this) world0).2)
     = map EvDeleteOperation ops
  /\ HasAsyncQuery (ProcessRequests fake_conn (submit_serial ops this) world0).1 = false.
Proof.
  intros this ops.
  destruct (serial_operations_run_in_submission_order fake_conn ops this world0)
    as (Hhas & _ & Hdel & Hnone & _).
  split; [apply Hhas; discriminate|]. split; [exact Hdel|exact Hnone].
Defined.

(** Two turns and a late arrival. *)
Lemma run_then_teardown_runs_every_operation_once_witness :
  let this := new_SqlDelayThread
                {| m_delayQueue := [SqlPlainRequest "DELETE a"]; m_pingIntervallms := 0 |} in
  let schedule : list Arrivals :=
    [([], [SqlPlainRequest "UPDATE b"]); ([SqlPlainRequest "UPDATE c"], [])] in
  let late : Arrivals := ([], [SqlPlainRequest "UPDATE d"]) in
  let out := run fake_conn schedule this world0 in
  deleted_operations
    (trace (destroy_SqlDelayThread fake_conn (enqueue late out.1.1) out.2).2)
  = map EvDeleteOperation
      [SqlPlainRequest "DELETE a"; SqlPlainRequest "UPDATE b";
       SqlPlainRequest "UPDATE c"; SqlPlainRequest "UPDATE d"].
Proof.
  intros this schedule late out.
  destruct (run_then_teardown_runs_every_operation_once fake_conn schedule late
              this world0 eq_refl) as (_ & Hall & _).
  exact Hall.
Defined.

(** A backlog of two, one more thread-unsafe callback arriving, and a
    budget that is used up after the first delivery. *)
Lemma Update_keeps_backlog_consistent_witness :
  let q := {| inbound := [callback 3 false; callback 4 true];
              _threadUnsafeWaitingQueries := [callback 1 false; callback 2 false];
              numUnsafeQueries := 2; m_callbackThreads := [] |} in
  backlog_consistent (Update fake_getMSTime fake_getMSTimeDiff 1 q world0).1
  /\ _threadUnsafeWaitingQueries (Update fake_getMSTime fake_getMSTimeDiff 1 q world0).1
     = [callback 2 false; callback 3 false].
Proof.
  intros q.
  assert (Hq : backlog_consistent q).
  { split; [repeat constructor|reflexivity]. }
  destruct (Update_keeps_backlog_consistent fake_getMSTime fake_getMSTimeDiff 1 q world0
              Hq ltac:(vm_compute; reflexivity)) as [Hcons _].
  split; [exact Hcons|reflexivity].
Defined.

Lemma Update_dispatches_thread_safe_to_pool_witness :
  let q := {| inbound := [callback 3 false; callback 4 true];
              _threadUnsafeWaitingQueries := [callback 1 false];
              numUnsafeQueries := 1; m_callbackThreads := [] |} in
  let w' := (Update fake_getMSTime fake_getMSTimeDiff 0 q world0).2 in
  pool_trace w' = delivered (callback 4 true)
  /\ (forall cb, In (EvCallbackExecute cb) (new_events world0 w') ->
                 IsThreadSafe cb = false).
Proof.
  intros q w'.
  destruct (Update_dispatches_thread_safe_to_pool fake_getMSTime fake_getMSTimeDiff
              0 q world0) as (Hpool & _ & _ & Hcaller).
  split; [exact Hpool|]. apply Hcaller. repeat constructor.
Defined.

(** A thread-safe callback and a failing query: one delivery on the pool,
    with the empty result. *)
Lemma async_query_is_delivered_once_witness :
  let w1 := (Execute fake_conn (SqlQuery "" (Some (callback 1 true)) (Some 3)) world0).2 in
  let out := Update fake_getMSTime fake_getMSTimeDiff 5 (queues w1 3) w1 in
  out.1 = new_SqlResultQueue
  /\ pool_trace out.2 = delivered (callback 1 true)
  /\ callback_events (trace out.2) = [].
Proof.
  intros w1 out.
  destruct (async_query_is_delivered_once fake_conn fake_getMSTime fake_getMSTimeDiff
              "" (callback 1 true) 3 5 world0 eq_refl) as [Hq [Hpool Hcaller]].
  split; [exact Hq|]. split; [exact Hpool|exact Hcaller].
Defined.

(** ** The turn on which the probe is issued *)

Section ProbeTiming.

Variable conn : SqlConnection.


End ProbeTiming.


(** The turn as the spec words it resets the counter and probes on the
    turn that brings the counter to the cadence. *)
Lemma claimed_ticks_probe_at_cadence (pingEveryLoop : Z) (turns : nat) :
  forall c : Z,
    (0 <= c)%Z -> (pingEveryLoop < 2 ^ 32)%Z ->
    (c + Z.of_nat turns + 1 = pingEveryLoop)%Z ->
    claimed_ticks pingEveryLoop (S turns) c = (0%Z, 1).
Proof.
  induction turns as [|turns IH]; intros c Hc HP Hsum.
  - simpl. unfold uint32. rewrite Z.mod_small by lia.
    rewrite Z.geb_leb. destruct (Z.leb_spec pingEveryLoop (c + 1)); [reflexivity|lia].
  - cbn [claimed_ticks]. unfold uint32. rewrite Z.mod_small by lia.
    rewrite Z.geb_leb. destruct (Z.leb_spec pingEveryLoop (c + 1)); [lia|].
    apply IH; lia.
Qed.

(** At a cadence of 3, nine turns as the spec words them probe three
    times, on the third, sixth and ninth; the loop of [run] probes twice. *)
Example claimed_ticks_nine_turns :
  claimed_ticks 3 3 0 = (0%Z, 1)
  /\ claimed_ticks 3 9 0 = (0%Z, 3)
  /\ count_events is_ping
       (trace (run fake_conn (replicate 9 ([], []))
                 {| m_dbEngine := {| m_delayQueue := []; m_pingIntervallms := 30 |};
                    m_running := true; m_serialDelayQueue := [] |} world0).2) = 2.
Proof. repeat split. Qed.
